(** * Roof construction of building_tools: [core/roof/roof_types.py]

    A shallow embedding of the skeleton-to-mesh reconstruction of
    [roof_types.py] and the properties of it that the design document
    states.

    Conventions of the embedding.
    - Python floats are embedded as exact rationals ([Q]); comparisons and
      the zero test are the exact ones, rounding is not modelled.
    - The mesh ([bm]) is an arena: [BMVert], [BMEdge] and [BMFace] are
      handles (indices) into the tables of a [BMesh] value, and every
      function that mutates the mesh takes and returns it.
    - A Python exception is the [Raise] outcome of the [result] type.
    - Python sets are duplicate-free lists; the iteration order of a set,
      which Python leaves unspecified, is the order of the list.
    - The operators of [bmesh.ops] that the properties depend on
      ([create_vert], [contextual_create] on two vertices, [translate]) and
      [bm.edges.get] are written out; the others stay outside. *)

From Stdlib Require Import QArith Qabs Lqa.
From stdpp Require Import base list strings.

(** ** Python values and exceptions *)

Module Py.

(** The built-in exceptions the modelled statements can raise, and the
    condition the design names for an all-zero skeleton.  No statement of
    [roof_types.py] raises [DegenerateSkeletonError]; it is listed so that
    the outcome of the code can be compared with it. *)
Inductive exn : Type :=
| ZeroDivisionError      (* float division by zero *)
| ValueError             (* max()/min() of an empty sequence, bad unpacking *)
| IndexError             (* pop from an empty list, [0] of an empty list *)
| TypeError              (* bm.edges.get(...) with a sequence of the wrong size *)
| DegenerateSkeletonError.

Inductive result (A : Type) : Type :=
| Ok (a : A)
| Raise (e : exn).
Arguments Ok {A} a.
Arguments Raise {A} e.

Definition bind {A B} (r : result A) (k : A -> result B) : result B :=
  match r with
  | Ok a => k a
  | Raise e => Raise e
  end.

(** [x < y] on floats. *)
Definition Qlt_bool (x y : Q) : bool := negb (Qle_bool y x).

(** Truth value of a float: [if x:] holds when [x] is not zero. *)
Definition truthy (x : Q) : bool := negb (Qeq_bool x 0).

(** [a / b] on floats. *)
Definition div (a b : Q) : result Q :=
  if Qeq_bool b 0 then Raise ZeroDivisionError else Ok (a / b)%Q.

(** [max(l, key=key)] and [min(l, key=key)] scan left to right and keep
    the first extremal element; on an empty sequence they raise. *)
Fixpoint max_from {A} (key : A -> Q) (best : A) (l : list A) : A :=
  match l with
  | [] => best
  | a :: l' => max_from key (if Qlt_bool (key best) (key a) then a else best) l'
  end.

Fixpoint min_from {A} (key : A -> Q) (best : A) (l : list A) : A :=
  match l with
  | [] => best
  | a :: l' => min_from key (if Qlt_bool (key a) (key best) then a else best) l'
  end.

Definition max_by {A} (key : A -> Q) (l : list A) : result A :=
  match l with
  | [] => Raise ValueError
  | a :: l' => Ok (max_from key a l')
  end.

Definition min_by {A} (key : A -> Q) (l : list A) : result A :=
  match l with
  | [] => Raise ValueError
  | a :: l' => Ok (min_from key a l')
  end.

Definition max (l : list Q) : result Q := max_by (fun q => q) l.
Definition min (l : list Q) : result Q := min_by (fun q => q) l.

(** [l.pop()]: the last element. *)
Definition pop {A} (l : list A) : result A :=
  match last l with
  | Some a => Ok a
  | None => Raise IndexError
  end.

(** [enumerate(l)]. *)
Definition enumerate {A} (l : list A) : list (nat * A) :=
  imap (fun i a => (i, a)) l.

(** [list(set(l))]. *)
Definition set_of `{EqDecision A} (l : list A) : list A := remove_dups l.

(** [list(set(l) - set(k))]. *)
Definition set_diff `{EqDecision A} (l k : list A) : list A :=
  remove_dups (list_difference l k).

End Py.

Import Py.

#[global] Instance result_bind : MBind result := fun A B k r => Py.bind r k.
#[global] Instance result_ret : MRet result := fun A a => Ok a.

(** ** Data model *)

(** [mathutils.Vector] with three components. *)
Module Vector.
Record t : Type := mk { x : Q; y : Q; z : Q }.

Definition add (a b : t) : t :=
  mk (x a + x b) (y a + y b) (z a + z b).
Definition sub (a b : t) : t :=
  mk (x a - x b) (y a - y b) (z a - z b).
Definition scale (a : t) (k : Q) : t :=
  mk (x a * k) (y a * k) (z a * k).
End Vector.

(** A 2-D point of the straight skeleton; [==] on points is exact. *)
Module Point2.
Record t : Type := mk { x : Q; y : Q }.

Definition eqb (p q : t) : bool :=
  Qeq_bool (x p) (x q) && Qeq_bool (y p) (y q).
End Point2.

(** An arc of the skeleton: the named tuple [(source, height, sinks)]
    returned by [skeletonize]. *)
Record Subtree : Type := mkSubtree {
  source : Point2.t;
  height : Q;
  sinks : list Point2.t
}.

Definition BMVert := nat.
Definition BMEdge := nat.
Definition BMFace := nat.

Record FaceData : Type := mkFace {
  f_edges : list BMEdge;
  normal : Vector.t
}.

(** The mesh: [verts !! v] is [v.co], [edges !! e] is [e.verts] and
    [faces !! f] holds [f.edges] and [f.normal]. *)
Record BMesh : Type := mkBMesh {
  verts : list Vector.t;
  edges : list (BMVert * BMVert);
  faces : list FaceData
}.

(** ** Lifting the skeleton into the mesh *)

Section NodeLifter.

(** [equal] of the repository's [utils]: equality of two floats up to
    its tolerance.  Its body is not part of [roof_types.py]. *)
Variable equal : Q -> Q -> bool.

(** [height_scale = prop.height / max([arc.height for arc in skeleton])] *)
Definition height_scale (prop_height : Q) (skeleton : list Subtree) : result Q :=
  m ← Py.max (map height skeleton);
  Py.div prop_height m.

(** The test of [vert_at_loc] on one vertex. *)
Definition at_loc (loc : Point2.t) (loc_z : option Q) (co : Vector.t) : bool :=
  if equal (Vector.x co) (Point2.x loc) && equal (Vector.y co) (Point2.y loc) then
    match loc_z with
    | Some lz =>
        if truthy lz then equal (Vector.z co) lz else true
    | None => true
    end
  else false.

(** [vert_at_loc(loc, verts, loc_z=None)] *)
Definition vert_at_loc (loc : Point2.t) (vs : list Vector.t) (loc_z : option Q)
  : option BMVert :=
  let results := filter (fun r => at_loc loc loc_z (snd r) = true) (enumerate vs) in
  match results with
  | [] => None
  | r :: results' => Some (fst (max_from (fun r => Vector.z (snd r)) r results'))
  end.

(** [make_vert(bm, location)] *)
Definition make_vert (bm : BMesh) (location : Vector.t) : BMesh * BMVert :=
  (mkBMesh (verts bm ++ [location]) (edges bm) (faces bm), length (verts bm)).

(** [bm.edges.get([a, b])] on two vertices: the edge that uses both. *)
Definition uses (a b : BMVert) (ev : BMVert * BMVert) : bool :=
  bool_decide (ev = (a, b)) || bool_decide (ev = (b, a)).

Definition edge_exists (bm : BMesh) (a b : BMVert) : option BMEdge :=
  fst <$> list_find (fun ev => uses a b ev = true) (edges bm).

(** [bmesh.ops.contextual_create(bm, geom=[a, b]).get("edges")]: the edge
    between the two vertices, created when the mesh has none. *)
Definition create_edge (bm : BMesh) (a b : BMVert) : BMesh * list BMEdge :=
  match edge_exists bm a b with
  | Some e => (bm, [e])
  | None =>
      (mkBMesh (verts bm) (edges bm ++ [(a, b)]) (faces bm), [length (edges bm)])
  end.

(** The state of the loop of [create_skeleton_verts_and_edges]: the mesh
    and the two lists the loop accumulates. *)
Record Lift : Type := mkLift {
  bm : BMesh;
  skeleton_edges : list BMEdge;
  skeleton_verts : list BMVert
}.

(** [for x in l: s = f(s, x)], stopping at the first exception. *)
Fixpoint for_each {S A} (f : S -> A -> result S) (l : list A) (s : S) : result S :=
  match l with
  | [] => Ok s
  | a :: l' => s' ← f s a; for_each f l' s'
  end.

Section Loop.

Variable skeleton : list Subtree.
Variable median : Vector.t.
Variable scale : Q.

(** [[arc.height for arc in skeleton if arc.source == source]] *)
Definition source_heights (src : Point2.t) : list Q :=
  map height (filter (fun a => Point2.eqb (source a) src = true) skeleton).

(** [[arc.height for arc in skeleton if sink in arc.sinks]] *)
Definition sink_heights (sink : Point2.t) : list Q :=
  map height (filter (fun a => existsb (Point2.eqb sink) (sinks a) = true) skeleton).

(** Lines 185-191: the vertex of the source of [arc]. *)
Definition lift_source (st : Lift) (arc : Subtree) : result (Lift * BMVert) :=
  let src := source arc in
  match vert_at_loc src (verts (bm st)) None with
  | Some vsource => Ok (st, vsource)
  | None =>
      h ← Py.pop (source_heights src);
      let ht := (h * scale)%Q in
      let '(bm', vsource) :=
        make_vert (bm st)
          (Vector.mk (Point2.x src) (Point2.y src) (Vector.z median + ht)) in
      Ok (mkLift bm' (skeleton_edges st) (skeleton_verts st ++ [vsource]), vsource)
  end.

(** Lines 194-198: the vertex of one sink. *)
Definition lift_sink_vert (b : BMesh) (sink : Point2.t) : result (BMesh * BMVert) :=
  match vert_at_loc sink (verts b) None with
  | Some vs => Ok (b, vs)
  | None =>
      sink_height ← Py.min (sink_heights sink);
      let ht := (scale * sink_height)%Q in
      Ok (make_vert b
            (Vector.mk (Point2.x sink) (Point2.y sink) (Vector.z median + ht)))
  end.

(** Lines 193-204: the body of [for sink in arc.sinks]. *)
Definition lift_sink (vsource : BMVert) (st : Lift) (sink : Point2.t) : result Lift :=
  '(b, vs) ← lift_sink_vert (bm st) sink;
  let sverts := skeleton_verts st ++ [vs] in
  if bool_decide (vs ≠ vsource) then
    let '(b', geom) := create_edge b vsource vs in
    Ok (mkLift b' (skeleton_edges st ++ geom) sverts)
  else Ok (mkLift b (skeleton_edges st) sverts).

(** Lines 184-204: the body of [for arc in skeleton]. *)
Definition lift_arc (st : Lift) (arc : Subtree) : result Lift :=
  '(st', vsource) ← lift_source st arc;
  for_each (lift_sink vsource) (sinks arc) st'.

End Loop.

(** [create_skeleton_verts_and_edges], lines 182-204: the loop that creates
    the vertices and edges.  What follows it in the source ([remove_doubles]
    and the joining of intersections) is the mesh kernel's work on the state
    returned here. *)
Definition create_skeleton_verts_and_edges
    (b : BMesh) (skeleton : list Subtree) (median : Vector.t) (height_scale : Q)
  : result Lift :=
  for_each (lift_arc skeleton median height_scale) skeleton (mkLift b [] []).

(** Lines 99-104 of [create_gable_roof] and, word for word, lines 136-141 of
    [create_hip_roof]: the scale, then the vertices and edges. *)
Definition scale_and_lift
    (b : BMesh) (skeleton : list Subtree) (median : Vector.t) (prop_height : Q)
  : result Lift :=
  hs ← height_scale prop_height skeleton;
  create_skeleton_verts_and_edges b skeleton median hs.

End NodeLifter.

(** ** Closing the faces over the boundary edges *)

(** [e.verts] *)
Definition edge_verts (b : BMesh) (e : BMEdge) : list BMVert :=
  match edges b !! e with
  | Some (v1, v2) => [v1; v2]
  | None => []
  end.

(** [v.link_edges]: the edges of the mesh that use [v]. *)
Definition link_edges (b : BMesh) (v : BMVert) : list BMEdge :=
  fst <$> filter (fun r => v = fst (snd r) \/ v = snd (snd r)) (enumerate (edges b)).

(** [get_linked_edges(verts, filter_edges)] *)
Definition get_linked_edges (b : BMesh) (vs : list BMVert) (filter_edges : list BMEdge)
  : list BMEdge :=
  let linked_edges := flat_map (link_edges b) vs in
  filter (fun e => e ∈ filter_edges) linked_edges.

(** [bm.edges.get(verts)]: the sequence must hold exactly two vertices. *)
Definition edges_get (b : BMesh) (vs : list BMVert) : result (option BMEdge) :=
  match vs with
  | [v1; v2] => Ok (edge_exists b v1 v2)
  | _ => Raise TypeError
  end.

(** Modelled from the spec: [calc_edge_median] of [utils], the midpoint of
    the edge ("the distance between their midpoints"). *)
Definition calc_edge_median (b : BMesh) (e : BMEdge) : Vector.t :=
  let cos := omap (fun v => verts b !! v) (edge_verts b e) in
  Vector.scale (foldr Vector.add (Vector.mk 0 0 0) cos) (/ inject_Z (Z.of_nat (length cos))).

Section FaceReconstructor.

(** [Vector.length] of [mathutils]. *)
Variable vec_length : Vector.t -> Q.

Definition length_func (b : BMesh) (pair : BMEdge * BMEdge) : Q :=
  let '(e1, e2) := pair in
  vec_length (Vector.sub (calc_edge_median b e1) (calc_edge_median b e2)).

(** [find_closest_pair_edges(edges_a, edges_b)].  [sorted] is stable, so the
    head of the sorted list is the first pair with the least key. *)
Definition find_closest_pair_edges (b : BMesh) (edges_a edges_b : list BMEdge)
  : result (BMEdge * BMEdge) :=
  let pairs := e1 ← edges_a; e2 ← edges_b; [(e1, e2)] in
  match pairs with
  | [] => Raise IndexError
  | p :: pairs' => Ok (min_from (length_func b) p pairs')
  end.

(** [cycle_edges_form_polygon].  The recursion of the source is not
    structural; [fuel] bounds its depth, and the number of recursive calls
    made is returned beside the outcome.  [None]: the fuel ran out. *)
Fixpoint cycle_walk (fuel : nat) (b : BMesh) (vs : list BMVert)
    (skeleton_edges linked_edges : list BMEdge)
  : option (nat * result (list BMEdge)) :=
  match fuel with
  | O => None
  | S fuel' =>
      match vs with
      | [v1; v2] =>
          let next_skeleton_edges := Py.set_diff skeleton_edges linked_edges in
          let v1_edges := get_linked_edges b [v1] next_skeleton_edges in
          let v2_edges := get_linked_edges b [v2] next_skeleton_edges in
          if bool_decide (v1_edges = []) || bool_decide (v2_edges = []) then
            Some (O, Ok linked_edges)
          else
            match find_closest_pair_edges b v1_edges v2_edges with
            | Raise e => Some (O, Raise e)
            | Ok (e1, e2) =>
                let all_verts := flat_map (edge_verts b) [e1; e2] in
                let vs' := Py.set_diff all_verts vs in
                if bool_decide (length vs' = 1) then
                  Some (O, Ok (linked_edges ++ [e1; e2]))
                else
                  match edges_get b vs' with
                  | Raise e => Some (O, Raise e)
                  | Ok (Some edge) => Some (O, Ok ([e1; e2] ++ linked_edges ++ [edge]))
                  | Ok None =>
                      '(n, r) ← cycle_walk fuel' b vs' skeleton_edges
                                  (linked_edges ++ [e1; e2]);
                      Some (S n, r)
                  end
            end
      | _ => Some (O, Raise ValueError)
      end
  end.

(** The skeleton edges the walk has not accumulated yet. *)
Definition remaining (skeleton_edges linked_edges : list BMEdge) : nat :=
  length (Py.set_diff skeleton_edges linked_edges).

Definition cycle_edges_form_polygon (b : BMesh) (vs : list BMVert)
    (skeleton_edges linked_edges : list BMEdge) : option (result (list BMEdge)) :=
  snd <$> cycle_walk (S (remaining skeleton_edges linked_edges)) b vs
            skeleton_edges linked_edges.

(** The geometry handed to [contextual_create] for one boundary edge, by
    the branch of [create_skeleton_faces] that builds it. *)
Inductive closure : Type :=
| Triangle (geom : list BMEdge)
| Quad (geom : list BMEdge)
| Polygon (geom : list BMEdge).

(** [[v for e in linked_skeleton_edges for v in e.verts]] less [ed.verts]. *)
Definition opposite_verts (b : BMesh) (skeleton_edges : list BMEdge) (ed : BMEdge)
  : list BMVert :=
  let linked_skeleton_edges := get_linked_edges b (edge_verts b ed) skeleton_edges in
  let all_verts := flat_map (edge_verts b) linked_skeleton_edges in
  Py.set_diff all_verts (edge_verts b ed).

(** Lines 224-246: the body of the loop of [create_skeleton_faces]. *)
Definition close_face (b : BMesh) (skeleton_edges : list BMEdge) (ed : BMEdge)
  : option (result closure) :=
  let vs := edge_verts b ed in
  let linked_skeleton_edges := get_linked_edges b vs skeleton_edges in
  let opposite := opposite_verts b skeleton_edges ed in
  if bool_decide (length opposite = 1) then
    Some (Ok (Triangle (linked_skeleton_edges ++ [ed])))
  else
    match edges_get b opposite with
    | Raise e => Some (Raise e)
    | Ok (Some edge) => Some (Ok (Quad (linked_skeleton_edges ++ [ed; edge])))
    | Ok None =>
        r ← cycle_edges_form_polygon b opposite skeleton_edges linked_skeleton_edges;
        Some (es ← r; Ok (Polygon ([ed] ++ es)))
    end.

End FaceReconstructor.

(** ** Finishing an open gable *)

(** [f.normal] and [f.edges]; a handle outside the table has no edges and
    the zero normal. *)
Definition face_normal (b : BMesh) (f : BMFace) : Vector.t :=
  default (Vector.mk 0 0 0) (normal <$> faces b !! f).

Definition face_edges (b : BMesh) (f : BMFace) : list BMEdge :=
  default [] (f_edges <$> faces b !! f).

(** [bmesh.ops.translate(bm, verts=vs, vec=vec)]: every listed vertex moves
    by [vec], once for each time it is listed. *)
Definition translate (b : BMesh) (vs : list BMVert) (vec : Vector.t) : BMesh :=
  mkBMesh (foldr (fun v cos => alter (fun co => Vector.add co vec) v cos) (verts b) vs)
          (edges b) (faces b).

(** Line 364: [top_faces = [f for f in roof_faces if f.normal.z]] *)
Definition top_faces (b : BMesh) (roof_faces : list BMFace) : list BMFace :=
  filter (fun f => truthy (Vector.z (face_normal b f)) = true) roof_faces.

Section GableOpen.

(** [filter_vertical_edges(edges, normal)] of [utils]. *)
Variable filter_vertical_edges : BMesh -> list BMEdge -> Vector.t -> list BMEdge.

(** Lines 396-398: the vertical edges of the side faces. *)
Definition side_v_edges (b : BMesh) (side_faces : list BMFace) : list BMEdge :=
  flat_map (fun f => filter_vertical_edges b (face_edges b f) (face_normal b f)) side_faces.

Definition median_z (b : BMesh) (e : BMEdge) : Q := Vector.z (calc_edge_median b e).

(** Lines 401-403: the vertices of the vertical edges of least [z]. *)
Definition min_z_verts (b : BMesh) (v_edges : list BMEdge) : result (list BMVert) :=
  min_z ← Py.min (map (median_z b) v_edges);
  let min_z_edges := filter (fun e => Qeq_bool (median_z b e) min_z = true) v_edges in
  Ok (Py.set_of (flat_map (edge_verts b) min_z_edges)).

(** Lines 396-404 of [gable_process_open]: the slope correction that
    follows the outset of the side faces. *)
Definition slope_correction (b : BMesh) (side_faces : list BMFace) (prop_outset : Q)
  : result BMesh :=
  let v_edges := side_v_edges b side_faces in
  vs ← min_z_verts b v_edges;
  Ok (translate b vs (Vector.mk 0 0 (- prop_outset / 2))).

End GableOpen.

(** ** Dispatch on the roof type *)

Module RoofProperty.
Record t : Type := mk {
  type : string;
  gable_type : string;
  height : Q;
  thickness : Q;
  outset : Q
}.
End RoofProperty.

(** The face maps of [utils.FaceMap] that [roof_types.py] names. *)
Inductive FaceMap : Type := ROOF | ROOF_HANGS | WALLS.

(** What [create_roof] works on: the mesh, the selection flags of its faces
    and the face-map groups of the object. *)
Record Scene : Type := mkScene {
  mesh : BMesh;
  selected : list BMFace;
  groups : list FaceMap
}.

(** Modelled from the spec: [select(faces, val)] of [utils], which sets the
    selection flag of every given face to [val] and leaves the geometry as
    it is. *)
Definition select (fs : list BMFace) (val : bool) (s : Scene) : Scene :=
  mkScene (mesh s)
          (if val then Py.set_of (selected s ++ fs) else list_difference (selected s) fs)
          (groups s).

Section CreateRoof.

(** The three constructions [create_roof] dispatches to, and the face-map
    registration of [utils]. *)
Variable create_flat_roof : Scene -> list BMFace -> RoofProperty.t -> result Scene.
Variable create_gable_roof : Scene -> list BMFace -> RoofProperty.t -> result Scene.
Variable create_hip_roof : Scene -> list BMFace -> RoofProperty.t -> result Scene.
Variable add_facemap_for_groups : FaceMap -> Scene -> Scene.

Definition create_roof (s : Scene) (fs : list BMFace) (prop : RoofProperty.t)
  : result Scene :=
  let s := select fs false s in
  if String.eqb (RoofProperty.type prop) "FLAT" then
    create_flat_roof s fs prop
  else if String.eqb (RoofProperty.type prop) "GABLE" then
    create_gable_roof (add_facemap_for_groups ROOF_HANGS s) fs prop
  else if String.eqb (RoofProperty.type prop) "HIP" then
    create_hip_roof (add_facemap_for_groups ROOF_HANGS s) fs prop
  else Ok s.

End CreateRoof.

(** ** Instances used by the examples *)

(** A tolerance test in the role of [equal], with tolerance 1/1000. *)
Definition equal_eps (a b : Q) : bool := Qle_bool (Qabs (a - b)) (1 # 1000).

(** The squared Euclidean norm, which orders vectors as their length does. *)
Definition sq_length (v : Vector.t) : Q :=
  Vector.x v * Vector.x v + Vector.y v * Vector.y v + Vector.z v * Vector.z v.

Definition Pt (a b : Q) : Point2.t := Point2.mk a b.
Definition Vec (a b c : Q) : Vector.t := Vector.mk a b c.

(** ** Vocabulary of the properties *)

(** What resolving the point [loc] did to the vertex table: where the
    mesh had vertices at [loc] the one of greatest [z] is taken and the
    table is left as it was; where it had none, one vertex is appended at
    [loc] and taken. *)
Definition reused_or_created (equal : Q -> Q -> bool) (loc : Point2.t)
    (before after : list Vector.t) (v : BMVert) : Prop :=
  ((exists i co, before !! i = Some co /\ at_loc equal loc None co = true) ->
   after = before /\
   exists co, before !! v = Some co /\ at_loc equal loc None co = true /\
     forall i co', before !! i = Some co' -> at_loc equal loc None co' = true ->
       (Vector.z co' <= Vector.z co)%Q)
  /\
  ((forall i co, before !! i = Some co -> at_loc equal loc None co = false) ->
   v = length before /\
   exists z, after = before ++ [Vector.mk (Point2.x loc) (Point2.y loc) z]).

(** [sink in arc.sinks] *)
Definition lists_sink (arc : Subtree) (sink : Point2.t) : Prop :=
  existsb (Point2.eqb sink) (sinks arc) = true.

(** The vertices the loop added to the mesh [b0], and the greatest [z] of a
    list of vertices. *)
Definition generated (b0 : BMesh) (st : Lift) : list Vector.t :=
  drop (length (verts b0)) (verts (bm st)).

Definition max_z (l : list Vector.t) : result Q := Py.max (map Vector.z l).

(** The vertex table of [b'] is that of [b] followed by vertices that
    satisfy [P]. *)
Definition vgrows (P : Vector.t -> Prop) (b b' : BMesh) : Prop :=
  exists new, verts b' = verts b ++ new /\ Forall P new.

(** The loop of [create_skeleton_verts_and_edges] run over the arcs [arcs]
    of [skeleton] from the state [st]. *)
Definition lift_arcs (equal : Q -> Q -> bool) (skeleton : list Subtree)
    (median : Vector.t) (height_scale : Q) (arcs : list Subtree) (st : Lift)
  : result Lift :=
  for_each (lift_arc equal skeleton median height_scale) arcs st.

(** ** Example footprints *)

(** The square footprint of side 2 at [z = 3], with a skeleton whose only
    arc has height zero. *)
Definition flat_square : BMesh :=
  mkBMesh [Vec 0 0 3; Vec 2 0 3; Vec 2 2 3; Vec 0 2 3] [(0, 1); (1, 2); (2, 3); (3, 0)]%nat [].

Definition zero_skeleton : list Subtree :=
  [mkSubtree (Pt 1 1) 0 [Pt 0 0; Pt 2 0; Pt 2 2; Pt 0 2]].

(** A rectangle of 4 by 2 at [z = 3] and the skeleton of its hip roof: two
    nodes of height 1 joined by the ridge. *)
Definition rectangle : BMesh :=
  mkBMesh [Vec 0 0 3; Vec 4 0 3; Vec 4 2 3; Vec 0 2 3] [(0, 1); (1, 2); (2, 3); (3, 0)]%nat [].

Definition west_arc : Subtree := mkSubtree (Pt 1 1) 1 [Pt 0 0; Pt 0 2].
Definition east_arc : Subtree := mkSubtree (Pt 3 1) 1 [Pt 4 0; Pt 4 2; Pt 1 1].
Definition rectangle_skeleton : list Subtree := [west_arc; east_arc].

(** A square of side 4 at [z = 3] over a vertex left at its centre at
    [z = 0], and a skeleton whose tallest arc has its source at the
    centre. *)
Definition square_over_centre : BMesh :=
  mkBMesh [Vec 0 0 3; Vec 4 0 3; Vec 4 4 3; Vec 0 4 3; Vec 2 2 0]
          [(0, 1); (1, 2); (2, 3); (3, 0)]%nat [].

Definition low_arc : Subtree := mkSubtree (Pt 1 1) 1 [Pt 0 0].
Definition apex_arc : Subtree := mkSubtree (Pt 2 2) 2 [Pt 1 1; Pt 4 0; Pt 4 4; Pt 0 4].
Definition centre_skeleton : list Subtree := [low_arc; apex_arc].

(** Two arcs of heights 2 and 1 that list the same sink. *)
Definition high_arc : Subtree := mkSubtree (Pt 1 2) 2 [Pt 1 1].
Definition shared_sink_skeleton : list Subtree :=
  [high_arc; mkSubtree (Pt 1 0) 1 [Pt 1 1]].

(** A boundary edge (edge 0) under a roof facet with six sides: two chains
    of skeleton edges, 1-3-5 and 2-4-6, climb from its ends to the vertex 6
    where they meet. *)
Definition facet_mesh : BMesh :=
  mkBMesh [Vec 0 0 0; Vec 4 0 0; Vec 1 1 1; Vec 3 1 1; Vec 1 2 2; Vec 3 2 2; Vec 2 3 3]
          [(0, 1); (0, 2); (1, 3); (2, 4); (3, 5); (4, 6); (5, 6)]%nat [].

Definition facet_skeleton_edges : list BMEdge := [1; 2; 3; 4; 5; 6]%nat.

(** The same skeleton without the edge 4: the chain from vertex 3 is
    broken.  And without the edge 6: the chain from vertex 5 is. *)
Definition broken_skeleton_edges : list BMEdge := [1; 2; 3; 5; 6]%nat.
Definition unclosed_skeleton_edges : list BMEdge := [1; 2; 3; 4; 5]%nat.

(** A boundary edge (edge 0) under a triangle, and one under a quad whose
    top is the edge 3. *)
Definition triangle_mesh : BMesh :=
  mkBMesh [Vec 0 0 0; Vec 2 0 0; Vec 1 1 1] [(0, 1); (0, 2); (1, 2)]%nat [].

Definition quad_mesh : BMesh :=
  mkBMesh [Vec 0 0 0; Vec 4 0 0; Vec 1 1 1; Vec 3 1 1] [(0, 1); (0, 2); (1, 3); (2, 3)]%nat [].

(** Three roof faces: a slope whose normal points up, a gable end whose
    normal is horizontal and a slope whose normal points down. *)
Definition gable_faces : BMesh :=
  mkBMesh [] []
          [mkFace [] (Vec 0 (-1) 1); mkFace [] (Vec 1 0 0); mkFace [] (Vec 0 1 (-1))].

(** A side face (face 0) of an open gable after the outset, a sloping band
    of thickness 1/10 in the plane [y = 0]: its vertical edges are the edge
    0 at the eave, between the vertices 0 and 1, and the edge 1 at the
    ridge, between the vertices 2 and 3. *)
Definition eave_mesh : BMesh :=
  mkBMesh [Vec 0 0 2; Vec 0 0 (21 # 10); Vec 3 0 4; Vec 3 0 (41 # 10)]
          [(0, 1); (2, 3); (0, 2); (1, 3)]%nat
          [mkFace [0; 1; 2; 3]%nat (Vec 0 1 0)].

(** In the role of [filter_vertical_edges]: the edges whose two ends have
    the same [x] and [y]. *)
Definition upright (b : BMesh) (e : BMEdge) : bool :=
  match omap (fun v => verts b !! v) (edge_verts b e) with
  | [c1; c2] =>
      Qeq_bool (Vector.x c1) (Vector.x c2) && Qeq_bool (Vector.y c1) (Vector.y c2)
  | _ => false
  end.

Definition upright_edges (b : BMesh) (es : list BMEdge) (n : Vector.t) : list BMEdge :=
  filter (fun e => upright b e = true) es.

(** A scene, a roof property of a type [create_roof] does not know, and
    constructions that would all leave the mesh empty. *)
Definition scene0 : Scene := mkScene gable_faces [0; 1; 2]%nat [WALLS].

Definition shed_prop : RoofProperty.t := RoofProperty.mk "SHED" "OPEN" 2 (1 # 10) (3 # 10).

Definition wipe (s : Scene) (fs : list BMFace) (prop : RoofProperty.t) : result Scene :=
  Ok (mkScene (mkBMesh [] [] []) [] []).

(** ** Invariants of the lifted mesh *)

(** The mesh has a vertex at the [x] and [y] of [loc]. *)
Definition present (equal : Q -> Q -> bool) (loc : Point2.t) (vs : list Vector.t) : Prop :=
  exists i co, vs !! i = Some co /\ at_loc equal loc None co = true.

(** No vertex from the index [n0] on was put where the table already had a
    vertex: none of the vertices before it is at its [x] and [y]. *)
Definition no_vertex_over (equal : Q -> Q -> bool) (n0 : nat) (vs : list Vector.t) : Prop :=
  forall i j ci cj,
    i < j -> n0 <= j -> vs !! i = Some ci -> vs !! j = Some cj ->
    at_loc equal (Point2.mk (Vector.x cj) (Vector.y cj)) None ci = false.

(** The edge [e] of [b] joins two different vertices of [b]. *)
Definition joins_two (b : BMesh) (e : BMEdge) : Prop :=
  exists v1 v2, edges b !! e = Some (v1, v2) /\ v1 <> v2 /\
                v1 < length (verts b) /\ v2 < length (verts b).

(** The lists of the loop name elements of its mesh. *)
Definition wf_lift (st : Lift) : Prop :=
  Forall (joins_two (bm st)) (skeleton_edges st) /\
  Forall (fun v => v < length (verts (bm st))) (skeleton_verts st).

(** What the state [st'] keeps of an earlier state [st]. *)
Definition lift_rel (equal : Q -> Q -> bool) (n0 : nat) (st st' : Lift) : Prop :=
  verts (bm st) `prefix_of` verts (bm st') /\
  edges (bm st) `prefix_of` edges (bm st') /\
  faces (bm st') = faces (bm st) /\
  skeleton_edges st `prefix_of` skeleton_edges st' /\
  skeleton_verts st `prefix_of` skeleton_verts st' /\
  (no_vertex_over equal n0 (verts (bm st)) -> no_vertex_over equal n0 (verts (bm st'))) /\
  (wf_lift st -> wf_lift st').

(** The edges handed to [contextual_create] for a boundary edge. *)
Definition geometry (c : closure) : list BMEdge :=
  match c with
  | Triangle geom | Quad geom | Polygon geom => geom
  end.

(** A boundary edge (edge 0) that no skeleton edge reaches. *)
Definition lone_edge_mesh : BMesh :=
  mkBMesh [Vec 0 0 0; Vec 2 0 0] [(0, 1)]%nat [].

(** ** Ordering the vertices of the footprint *)

(** [a < b] on the tuples [(x, y)]: the first components decide unless they
    are equal. *)
Definition tuple_lt (p q : Q * Q) : bool :=
  if Qeq_bool p.1 q.1 then Qlt_bool p.2 q.2 else Qlt_bool p.1 q.1.

(** [max(l, key=key)] for a key that is such a tuple. *)
Fixpoint max_from_tuple {A} (key : A -> Q * Q) (best : A) (l : list A) : A :=
  match l with
  | [] => best
  | a :: l' => max_from_tuple key (if tuple_lt (key best) (key a) then a else best) l'
  end.

(** [v.co.to_tuple()[:2]]; a handle outside the table reads as the
    origin. *)
Definition xy (b : BMesh) (v : BMVert) : Q * Q :=
  match verts b !! v with
  | Some co => (Vector.x co, Vector.y co)
  | None => (0%Q, 0%Q)
  end.

(** [face.loops] is the list of the vertices of its loops, in the order of
    the loops; [link_loop_prev] of a loop is the loop before it, that of the
    first being the last. *)
Definition link_loop_prev (n i : nat) : nat :=
  match i with
  | O => n - 1
  | S i' => i'
  end.

(** The [while] loop of [sort_verts_by_loops]: [k] vertices are still to be
    appended and [current_loop] is the loop [cur]. *)
Fixpoint walk_loops (loops : list BMVert) (k cur : nat) : list BMVert :=
  match k with
  | O => []
  | S k' => (loops !!! cur) :: walk_loops loops k' (link_loop_prev (length loops) cur)
  end.

(** [sort_verts_by_loops(face)] *)
Definition sort_verts_by_loops (b : BMesh) (loops : list BMVert) : result (list BMVert) :=
  match enumerate loops with
  | [] => Raise ValueError
  | l :: ls =>
      let start_loop := max_from_tuple (fun l => xy b l.2) l ls in
      Ok (walk_loops loops (length loops) start_loop.1)
  end.

(** The corners of [rectangle] as the loops of its face. *)
Definition rectangle_loops : list BMVert := [0; 1; 2; 3]%nat.

(** ** The side faces of an open gable *)

(** [e.link_faces]: the faces of the mesh that use [e]. *)
Definition link_faces (b : BMesh) (e : BMEdge) : list BMFace :=
  fst <$> filter (fun r => e ∈ f_edges r.2) (enumerate (faces b)).

(** Lines 373-381 of [gable_process_open]: the faces beside the new faces. *)
Definition find_side_faces (b : BMesh) (new_faces : list BMFace) : list BMFace :=
  flat_map
    (fun e =>
       let lf := link_faces b e in
       let len_valid := bool_decide (length lf = 2) in
       let link_valid :=
         bool_decide (length (filter (fun f => f ∈ new_faces) lf) = 1) in
       if len_valid && link_valid then Py.set_diff lf new_faces else [])
    (flat_map (face_edges b) new_faces).

Section UpperEdges.

Variable filter_vertical_edges : BMesh -> list BMEdge -> Vector.t -> list BMEdge.

(** Lines 386-388: the edge of a side face to dissolve after the outset. *)
Definition max_edge (b : BMesh) (f : BMFace) : result BMEdge :=
  let v_edges := filter_vertical_edges b (face_edges b f) (face_normal b f) in
  let es := Py.set_diff (face_edges b f) v_edges in
  Py.max_by (median_z b) es.

(** Lines 384-389: [dissolve_edges]. *)
Definition upper_edges (b : BMesh) (side_faces : list BMFace) : result (list BMEdge) :=
  for_each (fun dissolve_edges f => e ← max_edge b f; Ok (dissolve_edges ++ [e]))
           side_faces [].

(** The edge [e] is an edge of [f] that is not vertical, and no such edge of
    [f] has its median higher. *)
Definition highest_slanted (b : BMesh) (f : BMFace) (e : BMEdge) : Prop :=
  e ∈ face_edges b f /\
  (e ∉ filter_vertical_edges b (face_edges b f) (face_normal b f)) /\
  forall e', e' ∈ face_edges b f ->
    (e' ∉ filter_vertical_edges b (face_edges b f) (face_normal b f)) ->
    (median_z b e' <= median_z b e)%Q.

End UpperEdges.

(** Two roof slabs, the faces 0 and 1, that meet along the edge 1, between
    a wall, the face 2, beside the edge 0, and nothing beside the edge 2. *)
Definition slab_mesh : BMesh :=
  mkBMesh [] []
          [mkFace [0; 1]%nat (Vec 0 0 1); mkFace [1; 2]%nat (Vec 0 0 1);
           mkFace [0; 3]%nat (Vec 1 0 0)].

(** ** The calls of the closure walk *)

(** The call that a call of [cycle_edges_form_polygon] on the fronts [vs]
    with [linked_edges] accumulated makes of itself (lines 340-342): its
    fronts and its accumulated edges; [None] when the call returns or raises
    without calling itself. *)
Definition next_call (vec_length : Vector.t -> Q) (b : BMesh)
    (skeleton_edges : list BMEdge) (vs : list BMVert) (linked_edges : list BMEdge)
  : option (list BMVert * list BMEdge) :=
  match vs with
  | [v1; v2] =>
      let next_skeleton_edges := Py.set_diff skeleton_edges linked_edges in
      let v1_edges := get_linked_edges b [v1] next_skeleton_edges in
      let v2_edges := get_linked_edges b [v2] next_skeleton_edges in
      if bool_decide (v1_edges = []) || bool_decide (v2_edges = []) then None
      else
        match find_closest_pair_edges vec_length b v1_edges v2_edges with
        | Raise _ => None
        | Ok (e1, e2) =>
            let vs' := Py.set_diff (flat_map (edge_verts b) [e1; e2]) vs in
            if bool_decide (length vs' = 1) then None
            else
              match edges_get b vs' with
              | Ok None => Some (vs', linked_edges ++ [e1; e2])
              | _ => None
              end
        end
  | _ => None
  end.

(** The state the walk is in after [k] recursive calls, if it makes that
    many. *)
Fixpoint call_after (vec_length : Vector.t -> Q) (b : BMesh)
    (skeleton_edges : list BMEdge) (k : nat) (vs : list BMVert)
    (linked_edges : list BMEdge) : option (list BMVert * list BMEdge) :=
  match k with
  | O => Some (vs, linked_edges)
  | S k' =>
      '(vs', linked') ← next_call vec_length b skeleton_edges vs linked_edges;
      call_after vec_length b skeleton_edges k' vs' linked'
  end.

(** The chain [es] is [inner] with a pair of skeleton edges in front and,
    behind, the edge of the mesh between two different ends of that pair
    (line 338). *)
Definition closed_by_edge (b : BMesh) (skeleton_edges es inner : list BMEdge) : Prop :=
  exists e1 e2 edge o1 o2,
    es = [e1; e2] ++ inner ++ [edge] /\
    e1 ∈ skeleton_edges /\ e2 ∈ skeleton_edges /\
    edge_exists b o1 o2 = Some edge /\ o1 <> o2 /\
    o1 ∈ flat_map (edge_verts b) [e1; e2] /\
    o2 ∈ flat_map (edge_verts b) [e1; e2].

(** * Properties *)

(** ** Python's [max], [min] and [pop] *)

Lemma Qlt_bool_iff (a b : Q) : Qlt_bool a b = true <-> (a < b)%Q.
Proof.
  unfold Qlt_bool. rewrite negb_true_iff, <- not_true_iff_false, Qle_bool_iff.
  split; [apply Qnot_le_lt | apply Qlt_not_le].
Qed.

Lemma max_from_elem {A} (key : A -> Q) (l : list A) (best : A) :
  max_from key best l ∈ best :: l.
Proof.
  revert best. induction l as [|a l IH]; intros best; simpl.
  - apply list_elem_of_here.
  - specialize (IH (if Qlt_bool (key best) (key a) then a else best)).
    destruct (Qlt_bool (key best) (key a)).
    + now apply list_elem_of_further.
    + apply elem_of_cons in IH as [-> | IH]; [apply list_elem_of_here|].
      now do 2 apply list_elem_of_further.
Qed.

Lemma max_from_ge {A} (key : A -> Q) (l : list A) (best a : A) :
  a ∈ best :: l -> (key a <= key (max_from key best l))%Q.
Proof.
  revert best a. induction l as [|c l IH]; intros best a Ha; simpl.
  - apply list_elem_of_singleton in Ha as ->. apply Qle_refl.
  - destruct (Qlt_bool (key best) (key c)) eqn:Hlt.
    + apply Qlt_bool_iff in Hlt.
      apply elem_of_cons in Ha as [-> | Ha].
      * apply Qle_trans with (key c); [lra|]. apply IH, list_elem_of_here.
      * apply IH, Ha.
    + assert (key c <= key best)%Q as Hle.
      { apply Qnot_lt_le. intros H. apply Qlt_bool_iff in H. congruence. }
      apply elem_of_cons in Ha as [-> | Ha].
      * apply IH, list_elem_of_here.
      * apply elem_of_cons in Ha as [-> | Ha].
        -- apply Qle_trans with (key best); [exact Hle|]. apply IH, list_elem_of_here.
        -- apply IH. now apply list_elem_of_further.
Qed.

Lemma min_from_elem {A} (key : A -> Q) (l : list A) (best : A) :
  min_from key best l ∈ best :: l.
Proof.
  revert best. induction l as [|a l IH]; intros best; simpl.
  - apply list_elem_of_here.
  - specialize (IH (if Qlt_bool (key a) (key best) then a else best)).
    destruct (Qlt_bool (key a) (key best)).
    + now apply list_elem_of_further.
    + apply elem_of_cons in IH as [-> | IH]; [apply list_elem_of_here|].
      now do 2 apply list_elem_of_further.
Qed.

Lemma min_from_le {A} (key : A -> Q) (l : list A) (best a : A) :
  a ∈ best :: l -> (key (min_from key best l) <= key a)%Q.
Proof.
  revert best a. induction l as [|c l IH]; intros best a Ha; simpl.
  - apply list_elem_of_singleton in Ha as ->. apply Qle_refl.
  - destruct (Qlt_bool (key c) (key best)) eqn:Hlt.
    + apply Qlt_bool_iff in Hlt.
      apply elem_of_cons in Ha as [-> | Ha].
      * apply Qle_trans with (key c); [|lra]. apply IH, list_elem_of_here.
      * apply IH, Ha.
    + assert (key best <= key c)%Q as Hle.
      { apply Qnot_lt_le. intros H. apply Qlt_bool_iff in H. congruence. }
      apply elem_of_cons in Ha as [-> | Ha].
      * apply IH, list_elem_of_here.
      * apply elem_of_cons in Ha as [-> | Ha].
        -- apply Qle_trans with (key best); [|exact Hle]. apply IH, list_elem_of_here.
        -- apply IH. now apply list_elem_of_further.
Qed.

Lemma max_Ok (l : list Q) (m : Q) :
  Py.max l = Ok m -> m ∈ l /\ forall q, q ∈ l -> (q <= m)%Q.
Proof.
  destruct l as [|a l]; [discriminate|].
  unfold Py.max, max_by. intros [= <-]. split.
  - apply max_from_elem.
  - intros q Hq. now apply (max_from_ge (fun q => q)).
Qed.

Lemma min_Ok (l : list Q) (m : Q) :
  Py.min l = Ok m -> m ∈ l /\ forall q, q ∈ l -> (m <= q)%Q.
Proof.
  destruct l as [|a l]; [discriminate|].
  unfold Py.min, min_by. intros [= <-]. split.
  - apply min_from_elem.
  - intros q Hq. now apply (min_from_le (fun q => q)).
Qed.

Lemma max_nonempty (l : list Q) : l <> [] -> exists m, Py.max l = Ok m.
Proof. destruct l; [congruence|]. intros _. eexists. reflexivity. Qed.

Lemma min_nonempty (l : list Q) : l <> [] -> exists m, Py.min l = Ok m.
Proof. destruct l; [congruence|]. intros _. eexists. reflexivity. Qed.

(** ** The height scale *)

Lemma height_scale_zero (prop_height : Q) (skeleton : list Subtree) :
  skeleton <> [] ->
  (forall arc, arc ∈ skeleton -> height arc == 0) ->
  height_scale prop_height skeleton = Raise ZeroDivisionError.
Proof.
  intros Hne Hzero. unfold height_scale.
  destruct (max_nonempty (map height skeleton)) as [m Hm].
  { destruct skeleton; [congruence | discriminate]. }
  rewrite Hm. simpl. unfold mbind, result_bind, Py.bind, Py.div.
  apply max_Ok in Hm as [Hin _].
  apply list_elem_of_fmap in Hin as (arc & -> & Harc).
  apply Hzero, Qeq_bool_iff in Harc. now rewrite Harc.
Qed.

(** C1, as the code has it.  A skeleton that is not empty and whose arcs
    all have height zero makes [prop.height / max(...)] divide by zero: the
    division itself raises Python's [ZeroDivisionError], before the loop of
    [create_skeleton_verts_and_edges] is entered, so that no vertex, and no
    NaN or infinite height, is produced. *)
Theorem zero_height_skeleton_raises_ZeroDivisionError
    (equal : Q -> Q -> bool) (b : BMesh) (skeleton : list Subtree)
    (median : Vector.t) (prop_height : Q) :
  skeleton <> [] ->
  (forall arc, arc ∈ skeleton -> height arc == 0) ->
  scale_and_lift equal b skeleton median prop_height = Raise ZeroDivisionError.
Proof.
  intros Hne Hzero. unfold scale_and_lift.
  now rewrite (height_scale_zero prop_height skeleton Hne Hzero).
Qed.

Lemma zero_height_skeleton_raises_ZeroDivisionError_witness :
  scale_and_lift equal_eps flat_square zero_skeleton (Vec 1 1 3) 2 = Raise ZeroDivisionError.
Proof.
  apply zero_height_skeleton_raises_ZeroDivisionError.
  - discriminate.
  - intros arc Harc. apply list_elem_of_singleton in Harc as ->. reflexivity.
Defined.

(** C1, as stated, fails: on the all-zero skeleton the error that comes out
    is the division's own [ZeroDivisionError], not a degenerate-skeleton
    report raised by a guard. *)
Lemma zero_height_skeleton_not_guarded :
  scale_and_lift equal_eps flat_square zero_skeleton (Vec 1 1 3) 2
    = Raise ZeroDivisionError
  /\ scale_and_lift equal_eps flat_square zero_skeleton (Vec 1 1 3) 2
    <> Raise DegenerateSkeletonError.
Proof. split; [reflexivity | discriminate]. Qed.

(** ** Outcomes *)

Lemma bind_Ok {A B} (r : result A) (k : A -> result B) (b : B) :
  r ≫= k = Ok b <-> exists a, r = Ok a /\ k a = Ok b.
Proof.
  unfold mbind, result_bind, Py.bind. destruct r as [a|e]; split.
  - intros H. now exists a.
  - now intros (a' & [= <-] & H).
  - discriminate.
  - now intros (a' & [=] & _).
Qed.

Lemma for_each_app {S A} (f : S -> A -> result S) (l1 l2 : list A) (s : S) :
  for_each f (l1 ++ l2) s = for_each f l1 s ≫= for_each f l2.
Proof.
  revert s. induction l1 as [|a l1 IH]; intros s; simpl; [reflexivity|].
  unfold mbind, result_bind, Py.bind in *. destruct (f s a); [apply IH | reflexivity].
Qed.

(** A loop whose body keeps an invariant and never raises under it ends
    normally, in a state related to the first by any preorder the body
    respects. *)
Lemma for_each_Ok {S A} (f : S -> A -> result S) (R : S -> S -> Prop) (l : list A) :
  (forall s, R s s) ->
  (forall s1 s2 s3, R s1 s2 -> R s2 s3 -> R s1 s3) ->
  (forall s a, a ∈ l -> exists s', f s a = Ok s' /\ R s s') ->
  forall s, exists s', for_each f l s = Ok s' /\ R s s'.
Proof.
  intros Hrefl Htrans. induction l as [|a l IH]; intros Hstep s; simpl.
  - exists s. now split.
  - destruct (Hstep s a) as (s1 & Hs1 & HR1); [apply list_elem_of_here|].
    destruct (IH (fun s a Ha => Hstep s a (list_elem_of_further _ _ _ Ha)) s1)
      as (s2 & Hs2 & HR2).
    exists s2. split; [|eauto]. apply bind_Ok. eauto.
Qed.

(** ** Looking a vertex up by location *)

Section LifterFacts.

Variable equal : Q -> Q -> bool.

Lemma enumerate_elem {A} (l : list A) (i : nat) (a : A) :
  (i, a) ∈ enumerate l <-> l !! i = Some a.
Proof.
  unfold enumerate. rewrite elem_of_lookup_imap. split.
  - now intros (j & y & [= -> ->] & H).
  - intros H. now exists i, a.
Qed.

Lemma vert_at_loc_None (loc : Point2.t) (vs : list Vector.t) (lz : option Q) :
  vert_at_loc equal loc vs lz = None <->
  forall i co, vs !! i = Some co -> at_loc equal loc lz co = false.
Proof.
  unfold vert_at_loc.
  destruct (filter _ (enumerate vs)) as [|r rs] eqn:Hres; split; try done.
  - intros _ i co Hi. apply not_true_is_false. intros Hat.
    assert ((i, co) ∈ filter (fun r => at_loc equal loc lz r.2 = true) (enumerate vs)) as Hin.
    { apply list_elem_of_filter. split; [exact Hat | now apply enumerate_elem]. }
    rewrite Hres in Hin. inversion Hin.
  - intros Hnone. exfalso.
    assert (r ∈ filter (fun r => at_loc equal loc lz r.2 = true) (enumerate vs)) as Hin.
    { rewrite Hres. apply list_elem_of_here. }
    apply list_elem_of_filter in Hin as [Hat Hin]. destruct r as [i co].
    apply enumerate_elem in Hin. simpl in Hat. rewrite (Hnone i co Hin) in Hat. discriminate.
Qed.

Lemma vert_at_loc_Some (loc : Point2.t) (vs : list Vector.t) (lz : option Q) (v : BMVert) :
  vert_at_loc equal loc vs lz = Some v ->
  exists co, vs !! v = Some co /\ at_loc equal loc lz co = true /\
    forall i co', vs !! i = Some co' -> at_loc equal loc lz co' = true ->
      (Vector.z co' <= Vector.z co)%Q.
Proof.
  unfold vert_at_loc.
  destruct (filter _ (enumerate vs)) as [|r rs] eqn:Hres; [discriminate|].
  intros [= <-].
  pose proof (max_from_elem (fun r : nat * Vector.t => Vector.z r.2) rs r) as Hin.
  rewrite <- Hres in Hin. apply list_elem_of_filter in Hin as [Hat Hin].
  destruct (max_from _ r rs) as [v co] eqn:Hmax. apply enumerate_elem in Hin.
  exists co. simpl in *. split; [exact Hin|]. split; [exact Hat|].
  intros i co' Hi Hat'.
  assert ((i, co') ∈ r :: rs) as Hin'.
  { rewrite <- Hres. apply list_elem_of_filter. split; [exact Hat' | now apply enumerate_elem]. }
  apply (max_from_ge (fun r : nat * Vector.t => Vector.z r.2)) in Hin'.
  rewrite Hmax in Hin'. exact Hin'.
Qed.

End LifterFacts.

(** ** Resolving sources and sinks *)

Lemma Point2_eqb_refl (p : Point2.t) : Point2.eqb p p = true.
Proof.
  unfold Point2.eqb. apply andb_true_iff. split; now apply Qeq_bool_iff.
Qed.

Lemma pop_Ok {A} (l : list A) (a : A) : Py.pop l = Ok a -> a ∈ l.
Proof.
  unfold Py.pop. destruct (last l) eqn:Hl; [|discriminate].
  intros [= <-]. now apply last_Some_elem_of.
Qed.

Lemma pop_nonempty {A} (l : list A) : l <> [] -> exists a, Py.pop l = Ok a.
Proof.
  intros Hne. apply last_is_Some in Hne as [a Ha].
  exists a. unfold Py.pop. now rewrite Ha.
Qed.

Lemma lists_sink_of_elem (arc : Subtree) (sink : Point2.t) :
  sink ∈ sinks arc -> lists_sink arc sink.
Proof.
  intros Hin. apply existsb_exists. exists sink.
  split; [now apply list_elem_of_In | apply Point2_eqb_refl].
Qed.

Section Resolution.

Variable equal : Q -> Q -> bool.
Variable skeleton : list Subtree.
Variable median : Vector.t.
Variable scale : Q.

Lemma source_heights_spec (src : Point2.t) (h : Q) :
  h ∈ source_heights skeleton src <->
  exists a, a ∈ skeleton /\ Point2.eqb (source a) src = true /\ h = height a.
Proof.
  unfold source_heights. change (map height ?l) with (height <$> l).
  rewrite list_elem_of_fmap. split.
  - intros (a & -> & Ha). apply list_elem_of_filter in Ha as [Heq Ha]. eauto.
  - intros (a & Ha & Heq & ->). exists a. split; [done|]. now apply list_elem_of_filter.
Qed.

Lemma sink_heights_spec (sink : Point2.t) (h : Q) :
  h ∈ sink_heights skeleton sink <->
  exists a, a ∈ skeleton /\ lists_sink a sink /\ h = height a.
Proof.
  unfold sink_heights. change (map height ?l) with (height <$> l).
  rewrite list_elem_of_fmap. split.
  - intros (a & -> & Ha). apply list_elem_of_filter in Ha as [Heq Ha]. eauto.
  - intros (a & Ha & Heq & ->). exists a. split; [done|]. now apply list_elem_of_filter.
Qed.

(** The two ways [lift_source] ends for an arc of the skeleton. *)
Lemma lift_source_cases (st : Lift) (arc : Subtree) :
  arc ∈ skeleton ->
  (exists v, vert_at_loc equal (source arc) (verts (bm st)) None = Some v /\
     lift_source equal skeleton median scale st arc = Ok (st, v))
  \/
  (exists h, vert_at_loc equal (source arc) (verts (bm st)) None = None /\
     Py.pop (source_heights skeleton (source arc)) = Ok h /\
     lift_source equal skeleton median scale st arc =
       Ok (mkLift
             (mkBMesh (verts (bm st) ++
                         [Vector.mk (Point2.x (source arc)) (Point2.y (source arc))
                                    (Vector.z median + h * scale)])
                      (edges (bm st)) (faces (bm st)))
             (skeleton_edges st) (skeleton_verts st ++ [length (verts (bm st))]),
           length (verts (bm st)))).
Proof.
  intros Harc. unfold lift_source.
  destruct (vert_at_loc equal (source arc) (verts (bm st)) None) as [v|] eqn:Hloc.
  - left. now exists v.
  - right. destruct (pop_nonempty (source_heights skeleton (source arc))) as [h Hh].
    { intros Hnil.
      assert (height arc ∈ source_heights skeleton (source arc)) as Hin.
      { apply source_heights_spec. exists arc. auto using Point2_eqb_refl. }
      rewrite Hnil in Hin. inversion Hin. }
    exists h. rewrite Hh. now repeat split.
Qed.

(** The two ways [lift_sink_vert] ends for a sink of an arc of the
    skeleton. *)
Lemma lift_sink_vert_cases (b : BMesh) (arc : Subtree) (sink : Point2.t) :
  arc ∈ skeleton -> sink ∈ sinks arc ->
  (exists v, vert_at_loc equal sink (verts b) None = Some v /\
     lift_sink_vert equal skeleton median scale b sink = Ok (b, v))
  \/
  (exists h, vert_at_loc equal sink (verts b) None = None /\
     Py.min (sink_heights skeleton sink) = Ok h /\
     lift_sink_vert equal skeleton median scale b sink =
       Ok (mkBMesh (verts b ++
                      [Vector.mk (Point2.x sink) (Point2.y sink)
                                 (Vector.z median + scale * h)])
                   (edges b) (faces b),
           length (verts b))).
Proof.
  intros Harc Hsink. unfold lift_sink_vert.
  destruct (vert_at_loc equal sink (verts b) None) as [v|] eqn:Hloc.
  - left. now exists v.
  - right. destruct (min_nonempty (sink_heights skeleton sink)) as [h Hh].
    { intros Hnil.
      assert (height arc ∈ sink_heights skeleton sink) as Hin.
      { apply sink_heights_spec. exists arc. auto using lists_sink_of_elem. }
      rewrite Hnil in Hin. inversion Hin. }
    exists h. rewrite Hh. now repeat split.
Qed.

End Resolution.

(** C4.  Resolving the source of an arc, or one of its sinks, never raises.
    Where the mesh has vertices whose [x] and [y] are [equal] to those of
    the point, the one of greatest [z] among them is taken and no vertex is
    made; where it has none, a vertex is appended at the point's [x] and
    [y] and taken. *)
Theorem lookup_reuses_tallest_or_creates
    (equal : Q -> Q -> bool) (skeleton : list Subtree) (median : Vector.t)
    (scale : Q) (arc : Subtree) :
  arc ∈ skeleton ->
  (forall st, exists st' v,
      lift_source equal skeleton median scale st arc = Ok (st', v) /\
      reused_or_created equal (source arc) (verts (bm st)) (verts (bm st')) v)
  /\
  (forall b sink, sink ∈ sinks arc -> exists b' v,
      lift_sink_vert equal skeleton median scale b sink = Ok (b', v) /\
      reused_or_created equal sink (verts b) (verts b') v).
Proof.
  intros Harc. split.
  - intros st.
    destruct (lift_source_cases equal skeleton median scale st arc Harc)
      as [(v & Hloc & ->) | (h & Hloc & _ & ->)];
      eexists _, _; (split; [reflexivity|]); split; simpl.
    + intros _. split; [reflexivity|]. now apply vert_at_loc_Some.
    + intros Hnone. apply vert_at_loc_None in Hnone. congruence.
    + intros (i & co & Hi & Hat).
      rewrite (proj1 (vert_at_loc_None _ _ _ _) Hloc i co Hi) in Hat. discriminate.
    + intros _. split; [reflexivity|]. now eexists.
  - intros b sink Hsink.
    destruct (lift_sink_vert_cases equal skeleton median scale b arc sink Harc Hsink)
      as [(v & Hloc & ->) | (h & Hloc & _ & ->)];
      eexists _, _; (split; [reflexivity|]); split; simpl.
    + intros _. split; [reflexivity|]. now apply vert_at_loc_Some.
    + intros Hnone. apply vert_at_loc_None in Hnone. congruence.
    + intros (i & co & Hi & Hat).
      rewrite (proj1 (vert_at_loc_None _ _ _ _) Hloc i co Hi) in Hat. discriminate.
    + intros _. split; [reflexivity|]. now eexists.
Qed.

(** C3.  When the mesh has no vertex at the [x] and [y] of a sink, the
    vertex made for it is at [median.z + height_scale * h], where [h] is the
    least height among the arcs of the whole skeleton that list the point as
    a sink; it is at most the height of the arc being processed and need
    not be that height. *)
Theorem new_sink_vertex_takes_least_height
    (equal : Q -> Q -> bool) (skeleton : list Subtree) (median : Vector.t)
    (scale : Q) (b : BMesh) (arc : Subtree) (sink : Point2.t) :
  arc ∈ skeleton -> sink ∈ sinks arc ->
  (forall i co, verts b !! i = Some co -> at_loc equal sink None co = false) ->
  exists h,
    lift_sink_vert equal skeleton median scale b sink =
      Ok (mkBMesh (verts b ++
                     [Vector.mk (Point2.x sink) (Point2.y sink)
                                (Vector.z median + scale * h)])
                  (edges b) (faces b),
          length (verts b))
    /\ (exists a, a ∈ skeleton /\ lists_sink a sink /\ h = height a)
    /\ (forall a, a ∈ skeleton -> lists_sink a sink -> (h <= height a)%Q).
Proof.
  intros Harc Hsink Hnone. apply vert_at_loc_None in Hnone.
  destruct (lift_sink_vert_cases equal skeleton median scale b arc sink Harc Hsink)
    as [(v & Hloc & _) | (h & _ & Hmin & ->)]; [congruence|].
  exists h. split; [reflexivity|].
  apply min_Ok in Hmin as [Hin Hle]. split.
  - now apply sink_heights_spec.
  - intros a Ha Hlists. apply Hle, sink_heights_spec. eauto.
Qed.

(** ** The loop only appends vertices, none above the ridge *)

Lemma vgrows_refl (P : Vector.t -> Prop) (b : BMesh) : vgrows P b b.
Proof. exists []. split; [now rewrite app_nil_r | constructor]. Qed.

Lemma vgrows_trans (P : Vector.t -> Prop) (b1 b2 b3 : BMesh) :
  vgrows P b1 b2 -> vgrows P b2 b3 -> vgrows P b1 b3.
Proof.
  intros (n1 & H1 & F1) (n2 & H2 & F2). exists (n1 ++ n2). split.
  - now rewrite H2, H1, app_assoc.
  - now apply Forall_app.
Qed.

Lemma vgrows_lookup (P : Vector.t -> Prop) (b b' : BMesh) (i : nat) (co : Vector.t) :
  vgrows P b b' -> verts b !! i = Some co -> verts b' !! i = Some co.
Proof. intros (new & -> & _) Hi. now apply lookup_app_l_Some. Qed.

Lemma vgrows_length (P : Vector.t -> Prop) (b b' : BMesh) :
  vgrows P b b' -> length (verts b) <= length (verts b').
Proof. intros (new & -> & _). rewrite length_app. lia. Qed.

Lemma create_edge_verts (b : BMesh) (v1 v2 : BMVert) :
  verts (create_edge b v1 v2).1 = verts b.
Proof. unfold create_edge. now destruct (edge_exists b v1 v2). Qed.

Section LoopFacts.

Variable equal : Q -> Q -> bool.
Variable skeleton : list Subtree.
Variable median : Vector.t.
Variable scale : Q.
Variable top : Q.

Hypothesis scaled_below_top :
  forall a, a ∈ skeleton -> (height a * scale <= top)%Q.

Let below (co : Vector.t) : Prop := (Vector.z co <= Vector.z median + top)%Q.
Let grows (st st' : Lift) : Prop := vgrows below (bm st) (bm st').

Lemma lift_source_grows (st : Lift) (arc : Subtree) :
  arc ∈ skeleton ->
  exists st' v, lift_source equal skeleton median scale st arc = Ok (st', v) /\
                grows st st'.
Proof.
  intros Harc.
  destruct (lift_source_cases equal skeleton median scale st arc Harc)
    as [(v & _ & ->) | (h & _ & Hpop & ->)]; eexists _, _; (split; [reflexivity|]).
  - apply vgrows_refl.
  - eexists. split; [reflexivity|]. constructor; [|constructor].
    apply pop_Ok, source_heights_spec in Hpop as (a & Ha & _ & ->).
    unfold below. simpl. pose proof (scaled_below_top a Ha). lra.
Qed.

Lemma lift_sink_grows (vsource : BMVert) (arc : Subtree) (st : Lift) (sink : Point2.t) :
  arc ∈ skeleton -> sink ∈ sinks arc ->
  exists st', lift_sink equal skeleton median scale vsource st sink = Ok st' /\
              grows st st'.
Proof.
  intros Harc Hsink. unfold lift_sink.
  assert (exists b' vs,
            lift_sink_vert equal skeleton median scale (bm st) sink = Ok (b', vs) /\
            vgrows below (bm st) b') as (b' & vs & -> & Hgrow).
  { destruct (lift_sink_vert_cases equal skeleton median scale (bm st) arc sink Harc Hsink)
      as [(v & _ & ->) | (h & _ & Hmin & ->)]; eexists _, _; (split; [reflexivity|]).
    - apply vgrows_refl.
    - eexists. split; [reflexivity|]. constructor; [|constructor].
      apply min_Ok in Hmin as [Hin _].
      apply sink_heights_spec in Hin as (a & Ha & _ & ->).
      unfold below. simpl. pose proof (scaled_below_top a Ha). lra. }
  simpl. destruct (bool_decide (vs ≠ vsource)).
  - pose proof (create_edge_verts b' vsource vs) as Hv.
    destruct (create_edge b' vsource vs) as [b'' geom]. simpl in Hv.
    eexists. split; [reflexivity|]. unfold grows. simpl.
    destruct Hgrow as (new & Hnew & HF). exists new. now rewrite Hv.
  - eexists. split; [reflexivity|]. exact Hgrow.
Qed.

Lemma lift_arc_grows (st : Lift) (arc : Subtree) :
  arc ∈ skeleton ->
  exists st', lift_arc equal skeleton median scale st arc = Ok st' /\ grows st st'.
Proof.
  intros Harc. unfold lift_arc.
  destruct (lift_source_grows st arc Harc) as (st1 & v & -> & H1). simpl.
  destruct (for_each_Ok (lift_sink equal skeleton median scale v) grows (sinks arc))
    with (s := st1) as (st2 & -> & H2).
  - intros s. apply vgrows_refl.
  - intros s1 s2 s3. apply vgrows_trans.
  - intros s sink Hsink. now apply (lift_sink_grows v arc).
  - exists st2. split; [reflexivity|]. now apply vgrows_trans with (bm st1).
Qed.

Lemma lift_arcs_grows (arcs : list Subtree) (st : Lift) :
  (forall a, a ∈ arcs -> a ∈ skeleton) ->
  exists st', lift_arcs equal skeleton median scale arcs st = Ok st' /\ grows st st'.
Proof.
  intros Hsub. unfold lift_arcs. apply for_each_Ok.
  - intros s. apply vgrows_refl.
  - intros s1 s2 s3. apply vgrows_trans.
  - intros s a Ha. now apply lift_arc_grows, Hsub.
Qed.

(** An arc that finds no vertex at its source gets one, at the height of
    the arcs with that source, and the vertex stays where it is. *)
Lemma lift_arc_creates_source (st : Lift) (arc : Subtree) :
  arc ∈ skeleton ->
  vert_at_loc equal (source arc) (verts (bm st)) None = None ->
  (forall a, a ∈ skeleton -> Point2.eqb (source a) (source arc) = true ->
             height a == height arc) ->
  exists st' co,
    lift_arc equal skeleton median scale st arc = Ok st' /\ grows st st' /\
    verts (bm st') !! length (verts (bm st)) = Some co /\
    Vector.z co == Vector.z median + height arc * scale.
Proof.
  intros Harc Hnone Hsame.
  destruct (lift_arc_grows st arc Harc) as (st' & Hst' & Hgrow).
  unfold lift_arc in Hst'. apply bind_Ok in Hst' as ([st1 v] & Hsrc & Hsinks).
  destruct (lift_source_cases equal skeleton median scale st arc Harc)
    as [(v' & Hloc & _) | (h & _ & Hpop & Hsrc')]; [congruence|].
  rewrite Hsrc' in Hsrc. injection Hsrc as <- <-.
  destruct (for_each_Ok (lift_sink equal skeleton median scale (length (verts (bm st))))
              grows (sinks arc))
    with (s := mkLift
             (mkBMesh (verts (bm st) ++
                         [Vector.mk (Point2.x (source arc)) (Point2.y (source arc))
                                    (Vector.z median + h * scale)])
                      (edges (bm st)) (faces (bm st)))
             (skeleton_edges st) (skeleton_verts st ++ [length (verts (bm st))]))
    as (st2 & Hst2 & H2).
  - intros s. apply vgrows_refl.
  - intros s1 s2 s3. apply vgrows_trans.
  - intros s sink Hsink. now apply (lift_sink_grows _ arc).
  - rewrite Hst2 in Hsinks. injection Hsinks as ->.
    eexists st', _. split; [unfold lift_arc; rewrite Hsrc'; exact Hst2|].
    split; [exact Hgrow|]. split.
    + eapply vgrows_lookup; [exact H2|]. simpl.
      rewrite lookup_app_r by lia. now rewrite Nat.sub_diag.
    + simpl. apply pop_Ok, source_heights_spec in Hpop as (a & Ha & Heq & ->).
      rewrite (Hsame a Ha Heq). reflexivity.
Qed.

End LoopFacts.

(** ** The height of the ridge *)

(** What [height_scale] returns when some arc has positive height. *)
Lemma height_scale_Ok (H : Q) (skeleton : list Subtree) (hs : Q) :
  (0 <= H)%Q ->
  (exists arc, arc ∈ skeleton /\ (0 < height arc)%Q) ->
  height_scale H skeleton = Ok hs ->
  exists M, (0 < M)%Q /\ hs = (H / M)%Q /\ (0 <= hs)%Q /\
    (exists a, a ∈ skeleton /\ M = height a) /\
    (forall a, a ∈ skeleton -> (height a <= M)%Q) /\
    (forall a, a ∈ skeleton -> (height a * hs <= H)%Q).
Proof.
  intros HH (arc0 & Harc0 & Hpos) Hhs. unfold height_scale in Hhs.
  apply bind_Ok in Hhs as (M & Hmax & Hdiv).
  apply max_Ok in Hmax as [HM Hge].
  assert (forall a, a ∈ skeleton -> (height a <= M)%Q) as Hle.
  { intros a Ha. apply Hge. change (map height skeleton) with (height <$> skeleton).
    now apply list_elem_of_fmap_2. }
  assert (0 < M)%Q as HMpos by (pose proof (Hle arc0 Harc0); lra).
  unfold Py.div in Hdiv. destruct (Qeq_bool M 0); [discriminate|].
  injection Hdiv as <-.
  assert (0 <= H / M)%Q as Hhs0.
  { unfold Qdiv. apply Qmult_le_0_compat; [exact HH|].
    apply Qlt_le_weak, Qinv_lt_0_compat, HMpos. }
  exists M. repeat split; try done.
  - change (map height skeleton) with (height <$> skeleton) in HM.
    apply list_elem_of_fmap in HM as (a & -> & Ha). eauto.
  - intros a Ha. apply Qle_trans with (M * (H / M))%Q.
    + apply Qmult_le_compat_r; [now apply Hle | exact Hhs0].
    + rewrite Qmult_div_r; [apply Qle_refl | lra].
Qed.

Lemma generated_of_vgrows (P : Vector.t -> Prop) (b : BMesh) (st : Lift) :
  vgrows P b (bm st) -> Forall P (generated b st).
Proof.
  intros (new & Hnew & HF). unfold generated.
  now rewrite Hnew, drop_app_length.
Qed.

(** C2, as the code has it.  With a configured height that is not negative
    and a skeleton that has an arc of positive height, the loop run with
    [height_scale = height / max] ends normally and every vertex it adds to
    the mesh has [z] at most [median.z + height].  The bound is reached,
    and is then the greatest [z] among the added vertices, when a tallest
    arc, all arcs with its source having its height, finds no vertex of the
    mesh at its source at the time it is processed.  A vertex reused from
    the mesh keeps its own [z]. *)
Theorem generated_verts_reach_ridge_height
    (equal : Q -> Q -> bool) (b : BMesh) (skeleton : list Subtree)
    (median : Vector.t) (H hs : Q) :
  (0 <= H)%Q ->
  (exists arc, arc ∈ skeleton /\ (0 < height arc)%Q) ->
  height_scale H skeleton = Ok hs ->
  exists st,
    create_skeleton_verts_and_edges equal b skeleton median hs = Ok st /\
    (forall co, co ∈ generated b st -> (Vector.z co <= Vector.z median + H)%Q) /\
    (forall pre arc post st1,
        skeleton = pre ++ arc :: post ->
        (forall a, a ∈ skeleton -> (height a <= height arc)%Q) ->
        (forall a, a ∈ skeleton -> Point2.eqb (source a) (source arc) = true ->
                   height a == height arc) ->
        lift_arcs equal skeleton median hs pre (mkLift b [] []) = Ok st1 ->
        (forall i co, verts (bm st1) !! i = Some co ->
                      at_loc equal (source arc) None co = false) ->
        exists m, max_z (generated b st) = Ok m /\ m == Vector.z median + H).
Proof.
  intros HH Hpos Hhs.
  destruct (height_scale_Ok H skeleton hs HH Hpos Hhs)
    as (M & HMpos & HhsM & Hhs0 & (aM & HaM & HMa) & Hle & Hbelow).
  destruct (lift_arcs_grows equal skeleton median hs H Hbelow skeleton (mkLift b [] []))
    as (st & Hst & Hgrow); [auto|].
  exists st. split; [exact Hst|].
  pose proof (generated_of_vgrows _ b st Hgrow) as Hgen.
  split.
  { intros co Hco. revert co Hco. now apply Forall_forall. }
  intros pre arc post st1 Hsplit Htall Hsame Hpre Hnone.
  assert (arc ∈ skeleton) as Harc.
  { rewrite Hsplit. apply elem_of_app. right. apply list_elem_of_here. }
  destruct (lift_arcs_grows equal skeleton median hs H Hbelow pre (mkLift b [] []))
    as (st1' & Hpre' & Hgrow1).
  { intros a Ha. rewrite Hsplit. apply elem_of_app. now left. }
  rewrite Hpre in Hpre'. injection Hpre' as <-.
  apply vert_at_loc_None in Hnone.
  destruct (lift_arc_creates_source equal skeleton median hs H Hbelow st1 arc Harc Hnone Hsame)
    as (st2 & co & Hst2 & _ & Hco & Hz).
  destruct (lift_arcs_grows equal skeleton median hs H Hbelow post st2)
    as (st3 & Hst3 & Hgrow3).
  { intros a Ha. rewrite Hsplit. apply elem_of_app. right. now apply list_elem_of_further. }
  assert (st3 = st) as ->.
  { unfold lift_arcs in *. rewrite Hsplit in Hst at 2.
    rewrite for_each_app, Hpre in Hst. simpl in Hst.
    rewrite Hst2 in Hst. simpl in Hst. congruence. }
  pose proof (vgrows_lookup _ _ _ _ _ Hgrow3 Hco) as Hco'.
  assert (co ∈ generated b st) as Hin.
  { unfold generated. apply list_elem_of_lookup.
    exists (length (verts (bm st1)) - length (verts b))%nat.
    rewrite lookup_drop. rewrite <- Hco'. f_equal.
    pose proof (vgrows_length _ _ _ Hgrow1). simpl in *. lia. }
  assert (Vector.z co == Vector.z median + H) as Hzco.
  { rewrite Hz. assert (height arc == M) as ->.
    { apply Qle_antisym; [now apply Hle|]. rewrite HMa. now apply Htall. }
    rewrite HhsM, Qmult_div_r; [reflexivity | lra]. }
  destruct (max_nonempty (map Vector.z (generated b st))) as [m Hm].
  { intros Hnil. apply (f_equal length) in Hnil. rewrite length_map in Hnil.
    destruct (generated b st); [inversion Hin | discriminate]. }
  exists m. split; [exact Hm|].
  apply max_Ok in Hm as [Hmin Hmge].
  change (map Vector.z ?l) with (Vector.z <$> l) in Hmin, Hmge.
  apply list_elem_of_fmap in Hmin as (co' & -> & Hco'in).
  apply Qle_antisym.
  - eapply Forall_forall in Hgen; [exact Hgen | exact Hco'in].
  - rewrite <- Hzco. apply Hmge. now apply list_elem_of_fmap_2.
Qed.

Ltac no_vertex_there :=
  let i := fresh "i" in let co := fresh "co" in let H := fresh "H" in
  intros i co H;
  repeat (destruct i as [|i]; [injection H as <-; reflexivity|]);
  discriminate H.

Ltac one_of_the_arcs :=
  let a := fresh "a" in let Ha := fresh "Ha" in
  intros a Ha;
  repeat (apply elem_of_cons in Ha as [-> | Ha]; [try done|]);
  try (inversion Ha).

Lemma generated_verts_reach_ridge_height_witness :
  exists st,
    create_skeleton_verts_and_edges equal_eps rectangle rectangle_skeleton (Vec 2 1 3) 2
      = Ok st /\
    exists m, max_z (generated rectangle st) = Ok m /\ m == 3 + 2.
Proof.
  destruct (generated_verts_reach_ridge_height
              equal_eps rectangle rectangle_skeleton (Vec 2 1 3) 2 2)
    as (st & Hst & _ & Hreach).
  - discriminate.
  - exists west_arc. split; [apply list_elem_of_here | reflexivity].
  - reflexivity.
  - exists st. split; [exact Hst|].
    apply (Hreach [] west_arc [east_arc] (mkLift rectangle [] [])).
    + reflexivity.
    + one_of_the_arcs; discriminate.
    + one_of_the_arcs; discriminate.
    + reflexivity.
    + no_vertex_there.
Defined.

(** On the rectangle the two nodes of the ridge are made at [z = 5], the
    median's [z] plus the configured height. *)
Example rectangle_ridge :
  exists st,
    create_skeleton_verts_and_edges equal_eps rectangle rectangle_skeleton (Vec 2 1 3) 2
      = Ok st /\
    generated rectangle st = [Vec 1 1 5; Vec 3 1 5] /\
    skeleton_edges st = [4; 5; 6; 7; 8]%nat.
Proof. eexists. split; [vm_compute; reflexivity|]. split; reflexivity. Qed.

(** C2, as stated, fails.  The tallest arc of [centre_skeleton] has its
    source over a vertex the mesh already has; that vertex is reused, at its
    own [z], and the only vertex the loop adds belongs to the lower arc: it
    is at [z = 4], not at [median.z + height = 5], and no vertex of the mesh
    is at that height. *)
Lemma reused_apex_leaves_ridge_low :
  exists hs st m,
    height_scale 2 centre_skeleton = Ok hs /\
    create_skeleton_verts_and_edges equal_eps square_over_centre centre_skeleton
      (Vec 2 2 3) hs = Ok st /\
    max_z (generated square_over_centre st) = Ok m /\
    ~ m == 3 + 2 /\
    Forall (fun co => ~ Vector.z co == 3 + 2) (verts (bm st)).
Proof.
  eexists _, _, _. split; [reflexivity|].
  split; [vm_compute; reflexivity|].
  split; [vm_compute; reflexivity|].
  split; [intros H; vm_compute in H; discriminate H|].
  repeat constructor; intros H; vm_compute in H; discriminate H.
Qed.

Lemma lookup_reuses_tallest_or_creates_witness :
  (forall st, exists st' v,
      lift_source equal_eps rectangle_skeleton (Vec 2 1 3) 2 st east_arc = Ok (st', v) /\
      reused_or_created equal_eps (source east_arc) (verts (bm st)) (verts (bm st')) v)
  /\
  (forall b sink, sink ∈ sinks east_arc -> exists b' v,
      lift_sink_vert equal_eps rectangle_skeleton (Vec 2 1 3) 2 b sink = Ok (b', v) /\
      reused_or_created equal_eps sink (verts b) (verts b') v).
Proof.
  apply (lookup_reuses_tallest_or_creates equal_eps rectangle_skeleton (Vec 2 1 3) 2 east_arc).
  apply list_elem_of_further, list_elem_of_here.
Defined.

(** Of two vertices at the same [x] and [y], the lookup takes the one of
    greater [z]; with none there it answers [None]. *)
Example vert_at_loc_tallest :
  vert_at_loc equal_eps (Pt 2 2) [Vec 2 2 0; Vec 0 0 3; Vec 2 2 3; Vec 2 2 1] None = Some 2%nat
  /\ vert_at_loc equal_eps (Pt 1 1) [Vec 2 2 0; Vec 0 0 3; Vec 2 2 3; Vec 2 2 1] None = None.
Proof. split; reflexivity. Qed.

Lemma new_sink_vertex_takes_least_height_witness :
  exists h,
    lift_sink_vert equal_eps shared_sink_skeleton (Vec 1 1 3) 1 flat_square (Pt 1 1) =
      Ok (mkBMesh (verts flat_square ++ [Vector.mk 1 1 (3 + 1 * h)])
                  (edges flat_square) (faces flat_square),
          length (verts flat_square))
    /\ (exists a, a ∈ shared_sink_skeleton /\ lists_sink a (Pt 1 1) /\ h = height a)
    /\ (forall a, a ∈ shared_sink_skeleton -> lists_sink a (Pt 1 1) -> (h <= height a)%Q).
Proof.
  apply (new_sink_vertex_takes_least_height
           equal_eps shared_sink_skeleton (Vec 1 1 3) 1 flat_square high_arc (Pt 1 1)).
  - apply list_elem_of_here.
  - apply list_elem_of_here.
  - no_vertex_there.
Defined.

(** The sink of [high_arc], of height 2, is lifted by the height 1 of the
    other arc that lists it: the new vertex is at [z = 3 + 1]. *)
Example shared_sink_lifted_by_lower_arc :
  lift_sink_vert equal_eps shared_sink_skeleton (Vec 1 1 3) 1 flat_square (Pt 1 1) =
    Ok (mkBMesh (verts flat_square ++ [Vec 1 1 4]) (edges flat_square) (faces flat_square),
        4%nat).
Proof. reflexivity. Qed.

(** ** The closure walk *)

Lemma set_diff_elem (l k : list BMEdge) (e : BMEdge) :
  e ∈ Py.set_diff l k <-> e ∈ l /\ e ∉ k.
Proof.
  unfold Py.set_diff. now rewrite elem_of_remove_dups, list_elem_of_difference.
Qed.

Lemma set_diff_NoDup `{EqDecision A} (l k : list A) : NoDup (Py.set_diff l k).
Proof. apply NoDup_remove_dups. Qed.

Lemma get_linked_edges_elem (b : BMesh) (vs : list BMVert) (es : list BMEdge) (e : BMEdge) :
  e ∈ get_linked_edges b vs es -> e ∈ es.
Proof. unfold get_linked_edges. intros H. now apply list_elem_of_filter in H as [H _]. Qed.

(** Accumulating an edge the walk had not used yet leaves fewer edges to
    use. *)
Lemma remaining_decreases (skeleton_edges linked_edges : list BMEdge) (e1 e2 : BMEdge) :
  e1 ∈ Py.set_diff skeleton_edges linked_edges ->
  remaining skeleton_edges (linked_edges ++ [e1; e2]) < remaining skeleton_edges linked_edges.
Proof.
  intros He1. unfold remaining.
  set (L := Py.set_diff skeleton_edges linked_edges) in *.
  set (L' := Py.set_diff skeleton_edges (linked_edges ++ [e1; e2])).
  assert (e1 :: L' ⊆+ L) as Hsub.
  { apply NoDup_submseteq.
    - apply NoDup_cons. split; [|apply set_diff_NoDup].
      intros Hin. apply set_diff_elem in Hin as [_ Hnot].
      apply Hnot, elem_of_app. right. apply list_elem_of_here.
    - intros x Hx. apply elem_of_cons in Hx as [-> | Hx]; [exact He1|].
      apply set_diff_elem in Hx as [Hx Hnot]. apply set_diff_elem. split; [exact Hx|].
      intros Hin. apply Hnot, elem_of_app. now left. }
  apply submseteq_length in Hsub. simpl in Hsub. lia.
Qed.

Section WalkFacts.

Variable vec_length : Vector.t -> Q.

Lemma find_closest_pair_edges_elem (b : BMesh) (edges_a edges_b : list BMEdge)
    (e1 e2 : BMEdge) :
  find_closest_pair_edges vec_length b edges_a edges_b = Ok (e1, e2) ->
  e1 ∈ edges_a /\ e2 ∈ edges_b.
Proof.
  unfold find_closest_pair_edges.
  destruct (edges_a ≫= _) as [|p pairs] eqn:Hpairs; [discriminate|].
  intros [= Hmin].
  pose proof (min_from_elem (length_func vec_length b) pairs p) as Hin.
  rewrite Hmin, <- Hpairs in Hin.
  apply list_elem_of_bind in Hin as (x & Hin & Hx).
  apply list_elem_of_bind in Hin as (y & Hin & Hy).
  apply list_elem_of_singleton in Hin as [= -> ->]. now split.
Qed.

(** One call of the walk, with the recursive call left as it is. *)
Lemma cycle_walk_S (fuel : nat) (b : BMesh) (vs : list BMVert)
    (skeleton_edges linked_edges : list BMEdge) :
  cycle_walk vec_length (S fuel) b vs skeleton_edges linked_edges =
  match vs with
  | [v1; v2] =>
      let next_skeleton_edges := Py.set_diff skeleton_edges linked_edges in
      let v1_edges := get_linked_edges b [v1] next_skeleton_edges in
      let v2_edges := get_linked_edges b [v2] next_skeleton_edges in
      if bool_decide (v1_edges = []) || bool_decide (v2_edges = []) then
        Some (O, Ok linked_edges)
      else
        match find_closest_pair_edges vec_length b v1_edges v2_edges with
        | Raise e => Some (O, Raise e)
        | Ok (e1, e2) =>
            let vs' := Py.set_diff (flat_map (edge_verts b) [e1; e2]) vs in
            if bool_decide (length vs' = 1) then
              Some (O, Ok (linked_edges ++ [e1; e2]))
            else
              match edges_get b vs' with
              | Raise e => Some (O, Raise e)
              | Ok (Some edge) => Some (O, Ok ([e1; e2] ++ linked_edges ++ [edge]))
              | Ok None =>
                  '(n, r) ← cycle_walk vec_length fuel b vs' skeleton_edges
                              (linked_edges ++ [e1; e2]);
                  Some (S n, r)
              end
        end
  | _ => Some (O, Raise ValueError)
  end.
Proof. reflexivity. Qed.

Lemma cycle_walk_terminates_below (k : nat) :
  forall (b : BMesh) (vs : list BMVert) (skeleton_edges linked_edges : list BMEdge),
  remaining skeleton_edges linked_edges <= k ->
  exists n r,
    n <= remaining skeleton_edges linked_edges /\
    forall fuel, remaining skeleton_edges linked_edges < fuel ->
      cycle_walk vec_length fuel b vs skeleton_edges linked_edges = Some (n, r).
Proof.
  induction k as [|k IH]; intros b vs ske linked Hk.
  all: destruct vs as [|v1 [|v2 [|v3 vs]]];
    try (exists O, (Raise ValueError); split; [lia|];
         intros [|fuel] Hf; [lia | reflexivity]).
  all: destruct (bool_decide (get_linked_edges b [v1] (Py.set_diff ske linked) = [])
                 || bool_decide (get_linked_edges b [v2] (Py.set_diff ske linked) = []))
         eqn:Hstuck;
    [ exists O, (Ok linked); split; [lia|];
      intros [|fuel] Hf; [lia|]; rewrite cycle_walk_S; cbv zeta; now rewrite Hstuck | ].
  all: apply orb_false_iff in Hstuck as Hfronts; destruct Hfronts as [Hv1 Hv2];
    apply bool_decide_eq_false in Hv1, Hv2.
  all: destruct (find_closest_pair_edges vec_length b
                   (get_linked_edges b [v1] (Py.set_diff ske linked))
                   (get_linked_edges b [v2] (Py.set_diff ske linked)))
         as [[e1 e2]|e] eqn:Hpair;
    [ | exists O, (Raise e); split; [lia|];
        intros [|fuel] Hf; [lia|]; rewrite cycle_walk_S; cbv zeta;
        now rewrite Hstuck, Hpair ].
  all: apply find_closest_pair_edges_elem in Hpair as Helem; destruct Helem as [He1 _];
    apply get_linked_edges_elem in He1;
    pose proof (remaining_decreases ske linked e1 e2 He1) as Hdec.
  - lia.
  - set (vs' := Py.set_diff (flat_map (edge_verts b) [e1; e2]) [v1; v2]).
    destruct (bool_decide (length vs' = 1)) eqn:Hone.
    { exists O, (Ok (linked ++ [e1; e2])). split; [lia|].
      intros [|fuel] Hf; [lia|]. rewrite cycle_walk_S. cbv zeta.
      rewrite Hstuck, Hpair. fold vs'. now rewrite Hone. }
    destruct (edges_get b vs') as [[edge|]|e] eqn:Hget.
    + exists O, (Ok ([e1; e2] ++ linked ++ [edge])). split; [lia|].
      intros [|fuel] Hf; [lia|]. rewrite cycle_walk_S. cbv zeta.
      rewrite Hstuck, Hpair. fold vs'. now rewrite Hone, Hget.
    + destruct (IH b vs' ske (linked ++ [e1; e2])) as (n & r & Hn & Hrun); [lia|].
      exists (S n), r. split; [lia|].
      intros [|fuel] Hf; [lia|]. rewrite cycle_walk_S. cbv zeta.
      rewrite Hstuck, Hpair. fold vs'. rewrite Hone, Hget.
      rewrite Hrun by lia. reflexivity.
    + exists O, (Raise e). split; [lia|].
      intros [|fuel] Hf; [lia|]. rewrite cycle_walk_S. cbv zeta.
      rewrite Hstuck, Hpair. fold vs'. now rewrite Hone, Hget.
Qed.

End WalkFacts.

(** C6.  The closure walk ends on every input: it makes a number of
    recursive calls that is at most the number of skeleton edges not yet
    accumulated, and then returns or raises, whatever fuel above that number
    it is given. *)
Theorem cycle_edges_form_polygon_terminates
    (vec_length : Vector.t -> Q) (b : BMesh) (vs : list BMVert)
    (skeleton_edges linked_edges : list BMEdge) :
  exists n r,
    n <= remaining skeleton_edges linked_edges /\
    (forall fuel, remaining skeleton_edges linked_edges < fuel ->
       cycle_walk vec_length fuel b vs skeleton_edges linked_edges = Some (n, r)) /\
    cycle_edges_form_polygon vec_length b vs skeleton_edges linked_edges = Some r.
Proof.
  destruct (cycle_walk_terminates_below vec_length
              (remaining skeleton_edges linked_edges) b vs skeleton_edges linked_edges)
    as (n & r & Hn & Hrun); [lia|].
  exists n, r. split; [exact Hn|]. split; [exact Hrun|].
  unfold cycle_edges_form_polygon. now rewrite Hrun by lia.
Qed.

(** A call of the walk in which one of the two fronts has no unused
    skeleton edge returns the edges accumulated so far, and does not
    raise. *)
Lemma stuck_walk_returns_accumulated_edges
    (vec_length : Vector.t -> Q) (b : BMesh) (v1 v2 : BMVert)
    (skeleton_edges linked_edges : list BMEdge) :
  get_linked_edges b [v1] (Py.set_diff skeleton_edges linked_edges) = [] \/
  get_linked_edges b [v2] (Py.set_diff skeleton_edges linked_edges) = [] ->
  (forall fuel,
     cycle_walk vec_length (S fuel) b [v1; v2] skeleton_edges linked_edges
       = Some (O, Ok linked_edges)) /\
  cycle_edges_form_polygon vec_length b [v1; v2] skeleton_edges linked_edges
    = Some (Ok linked_edges).
Proof.
  intros Hstuck.
  assert (forall fuel,
            cycle_walk vec_length (S fuel) b [v1; v2] skeleton_edges linked_edges
              = Some (O, Ok linked_edges)) as Hwalk.
  { intros fuel. rewrite cycle_walk_S. cbv zeta.
    destruct Hstuck as [-> | ->]; simpl; [reflexivity|].
    now rewrite orb_true_r. }
  split; [exact Hwalk|].
  unfold cycle_edges_form_polygon. now rewrite Hwalk.
Qed.

Lemma stuck_walk_returns_accumulated_edges_witness :
  (forall fuel,
     cycle_walk sq_length (S fuel) facet_mesh [2; 3]%nat broken_skeleton_edges [1; 2]%nat
       = Some (O, Ok [1; 2]%nat)) /\
  cycle_edges_form_polygon sq_length facet_mesh [2; 3]%nat broken_skeleton_edges [1; 2]%nat
    = Some (Ok [1; 2]%nat).
Proof.
  apply (stuck_walk_returns_accumulated_edges
           sq_length facet_mesh 2%nat 3%nat broken_skeleton_edges [1; 2]%nat).
  right. reflexivity.
Defined.

(** The walk over the six-sided facet recurses once and closes at the
    vertex where the chains meet; four skeleton edges were left to use. *)
Example walk_closes_facet :
  remaining facet_skeleton_edges [1; 2]%nat = 4%nat /\
  cycle_walk sq_length 5 facet_mesh [2; 3]%nat facet_skeleton_edges [1; 2]%nat
    = Some (1%nat, Ok [1; 2; 3; 4; 5; 6]%nat).
Proof. split; vm_compute; reflexivity. Qed.

(** A front that runs out of edges after one recursive call: the walk
    gives back the four edges it had accumulated by then. *)
Example walk_stuck_after_one_call :
  cycle_walk sq_length 4 facet_mesh [2; 3]%nat unclosed_skeleton_edges [1; 2]%nat
    = Some (1%nat, Ok [1; 2; 3; 4]%nat).
Proof. vm_compute. reflexivity. Qed.

(** ** Triangle, quad and polygon *)

Lemma opposite_verts_NoDup (b : BMesh) (skeleton_edges : list BMEdge) (ed : BMEdge) :
  NoDup (opposite_verts b skeleton_edges ed).
Proof. apply set_diff_NoDup. Qed.

(** C5.  For a boundary edge [ed]: with exactly one opposite vertex the
    face is closed, as a triangle, over the linked skeleton edges and [ed];
    and the face is closed as a quad, over the linked edges, [ed] and the
    edge between the opposite vertices, exactly when there are two opposite
    vertices and the mesh has an edge between them. *)
Theorem close_face_triangle_and_quad
    (vec_length : Vector.t -> Q) (b : BMesh) (skeleton_edges : list BMEdge)
    (ed : BMEdge) :
  let linked := get_linked_edges b (edge_verts b ed) skeleton_edges in
  let opposite := opposite_verts b skeleton_edges ed in
  (length opposite = 1 ->
   close_face vec_length b skeleton_edges ed = Some (Ok (Triangle (linked ++ [ed]))))
  /\
  (forall geom,
     close_face vec_length b skeleton_edges ed = Some (Ok (Quad geom)) <->
     exists o1 o2 edge,
       opposite = [o1; o2] /\ o1 <> o2 /\ edge_exists b o1 o2 = Some edge /\
       geom = linked ++ [ed; edge]).
Proof.
  intros linked opposite. unfold close_face. fold linked. fold opposite. split.
  - intros Hone. now rewrite bool_decide_eq_true_2.
  - intros geom. split.
    + destruct (bool_decide (length opposite = 1)); [discriminate|].
      pose proof (opposite_verts_NoDup b skeleton_edges ed) as Hnd. fold opposite in Hnd.
      destruct opposite as [|o1 [|o2 [|o3 rest]]]; simpl; try discriminate.
      destruct (edge_exists b o1 o2) as [edge|] eqn:Hedge.
      * intros [= <-]. exists o1, o2, edge. repeat split; try done.
        intros ->. apply NoDup_cons in Hnd as [Hnot _].
        apply Hnot, list_elem_of_here.
      * destruct (cycle_edges_form_polygon _ _ _ _ _) as [[es|e]|]; discriminate.
    + intros (o1 & o2 & edge & -> & _ & Hedge & ->). simpl. now rewrite Hedge.
Qed.

(** The three branches on the example meshes. *)
Example close_face_triangle :
  close_face sq_length triangle_mesh [1; 2]%nat 0%nat = Some (Ok (Triangle [1; 2; 0]%nat)).
Proof. vm_compute. reflexivity. Qed.

Example close_face_quad :
  close_face sq_length quad_mesh [1; 2; 3]%nat 0%nat = Some (Ok (Quad [1; 2; 0; 3]%nat)).
Proof. vm_compute. reflexivity. Qed.

Example close_face_polygon :
  close_face sq_length facet_mesh facet_skeleton_edges 0%nat
    = Some (Ok (Polygon [0; 1; 2; 3; 4; 5; 6]%nat)).
Proof. vm_compute. reflexivity. Qed.

(** With the chain broken the walk gives back the open chain, and the face
    is attempted over it. *)
Example close_face_open_chain :
  close_face sq_length facet_mesh broken_skeleton_edges 0%nat
    = Some (Ok (Polygon [0; 1; 2]%nat)).
Proof. vm_compute. reflexivity. Qed.

(** ** Finishing an open gable *)

Lemma truthy_iff (q : Q) : truthy q = true <-> ~ q == 0.
Proof.
  unfold truthy. rewrite negb_true_iff, <- not_true_iff_false.
  now rewrite Qeq_bool_iff.
Qed.

(** The faces handed to the extrusion are the roof faces whose normal has a
    [z] component that is not zero, of either sign; a roof face whose normal
    is horizontal is not among them. *)
Lemma top_faces_are_the_non_horizontal_ones
    (b : BMesh) (roof_faces : list BMFace) (f : BMFace) :
  f ∈ top_faces b roof_faces <->
  f ∈ roof_faces /\ ~ Vector.z (face_normal b f) == 0.
Proof.
  unfold top_faces. rewrite list_elem_of_filter, truthy_iff. tauto.
Qed.

(** Of the three faces of [gable_faces] the two slopes are taken, the one
    whose normal points down as well as the one whose normal points up, and
    the gable end is left. *)
Example top_faces_of_gable : top_faces gable_faces [0; 1; 2]%nat = [0; 2]%nat.
Proof. reflexivity. Qed.


Lemma translate_lookup (b : BMesh) (vs : list BMVert) (vec : Vector.t) (v : BMVert) :
  NoDup vs ->
  verts (translate b vs vec) !! v =
    if decide (v ∈ vs) then (fun co => Vector.add co vec) <$> verts b !! v
    else verts b !! v.
Proof.
  unfold translate, BMVert in *. simpl. induction vs as [|u vs IH]; intros Hnd; simpl.
  - destruct (decide (v ∈ [])) as [Hin|_]; [inversion Hin | reflexivity].
  - apply NoDup_cons in Hnd as [Hu Hnd]. specialize (IH Hnd).
    destruct (decide (u = v)) as [->|Hne].
    + rewrite list_lookup_alter_eq, IH.
      destruct (decide (v ∈ vs)); [contradiction|].
      destruct (decide (v ∈ v :: vs)) as [_|Hnot]; [reflexivity|].
      exfalso. apply Hnot, list_elem_of_here.
    + rewrite list_lookup_alter_ne by exact Hne. rewrite IH.
      destruct (decide (v ∈ vs)) as [Hin|Hnin];
        destruct (decide (v ∈ u :: vs)) as [Hin'|Hnin']; try reflexivity.
      * exfalso. apply Hnin'. now apply list_elem_of_further.
      * exfalso. apply elem_of_cons in Hin' as [->|Hin']; [now apply Hne | contradiction].
Qed.

Lemma flat_map_elem {A B} (f : A -> list B) (l : list A) (y : B) :
  y ∈ flat_map f l <-> exists x, x ∈ l /\ y ∈ f x.
Proof.
  rewrite list_elem_of_In, in_flat_map. split; intros (x & Hx & Hy); exists x.
  - now rewrite !list_elem_of_In.
  - now rewrite <- !list_elem_of_In.
Qed.

Section SlopeCorrection.

Variable filter_vertical_edges : BMesh -> list BMEdge -> Vector.t -> list BMEdge.

(** The vertices the correction moves: those of the vertical edges whose
    median is as low as that of any vertical edge. *)
Lemma min_z_verts_elem (b : BMesh) (v_edges : list BMEdge) (vs : list BMVert) :
  min_z_verts b v_edges = Ok vs ->
  NoDup vs /\
  forall v, v ∈ vs <->
    exists e, e ∈ v_edges /\ v ∈ edge_verts b e /\
      forall e', e' ∈ v_edges -> (median_z b e <= median_z b e')%Q.
Proof.
  unfold min_z_verts. intros Hvs. apply bind_Ok in Hvs as (m & Hmin & [= <-]).
  split; [apply NoDup_remove_dups|].
  apply min_Ok in Hmin as [Hm Hle].
  change (map (median_z b) v_edges) with (median_z b <$> v_edges) in Hm, Hle.
  intros v. unfold Py.set_of. rewrite elem_of_remove_dups, flat_map_elem. split.
  - intros (e & He & Hv). apply list_elem_of_filter in He as [Heq He].
    apply Qeq_bool_iff in Heq. exists e. repeat split; try done.
    intros e' He'. rewrite Heq. apply Hle. now apply list_elem_of_fmap_2.
  - intros (e & He & Hv & Hlow). exists e. split; [|exact Hv].
    apply list_elem_of_filter. split; [|exact He].
    apply Qeq_bool_iff, Qle_antisym.
    + apply list_elem_of_fmap in Hm as (e' & -> & He'). now apply Hlow.
    + apply Hle. now apply list_elem_of_fmap_2.
Qed.

End SlopeCorrection.

(** C9.  When the side faces have vertical edges, the slope correction
    ends normally and every vertex of a vertical edge whose median is as
    low as that of any vertical edge is moved once, by [-outset/2] along
    [z]: its [x] and [y] stay and its [z] is [outset/2] less than before. *)
Theorem slope_correction_lowers_min_z_verts
    (filter_vertical_edges : BMesh -> list BMEdge -> Vector.t -> list BMEdge)
    (b : BMesh) (side_faces : list BMFace) (prop_outset : Q) :
  side_v_edges filter_vertical_edges b side_faces <> [] ->
  exists b',
    slope_correction filter_vertical_edges b side_faces prop_outset = Ok b' /\
    forall e v co,
      e ∈ side_v_edges filter_vertical_edges b side_faces ->
      (forall e', e' ∈ side_v_edges filter_vertical_edges b side_faces ->
                  (median_z b e <= median_z b e')%Q) ->
      v ∈ edge_verts b e ->
      verts b !! v = Some co ->
      exists co',
        verts b' !! v = Some co' /\
        Vector.x co' == Vector.x co /\ Vector.y co' == Vector.y co /\
        Vector.z co' == Vector.z co - prop_outset / 2.
Proof.
  intros Hne. unfold slope_correction.
  set (v_edges := side_v_edges filter_vertical_edges b side_faces) in *.
  destruct (min_nonempty (map (median_z b) v_edges)) as [m Hm].
  { destruct v_edges; [congruence | discriminate]. }
  assert (exists vs, min_z_verts b v_edges = Ok vs) as [vs Hvs].
  { unfold min_z_verts. rewrite Hm. now eexists. }
  rewrite Hvs. eexists. split; [reflexivity|].
  intros e v co He Hlow Hv Hco.
  apply min_z_verts_elem in Hvs as [Hnd Hvs].
  rewrite (translate_lookup _ _ _ _ Hnd).
  destruct (decide (v ∈ vs)) as [_|Hnot].
  - rewrite Hco. eexists. split; [reflexivity|]. simpl. repeat split; try lra.
    unfold Qdiv. field.
  - exfalso. apply Hnot, Hvs. eauto.
Qed.

Lemma slope_correction_lowers_min_z_verts_witness :
  exists b',
    slope_correction upright_edges eave_mesh [0%nat] (3 # 10) = Ok b' /\
    exists lo hi,
      verts b' !! 0%nat = Some lo /\ Vector.z lo == 2 - (3 # 10) / 2 /\
      verts b' !! 2%nat = Some hi /\ Vector.z hi == 4.
Proof.
  destruct (slope_correction_lowers_min_z_verts upright_edges eave_mesh [0%nat] (3 # 10))
    as (b' & Hb' & Hmove); [discriminate|].
  exists b'. split; [exact Hb'|].
  destruct (Hmove 0%nat 0%nat (Vec 0 0 2)) as (lo & Hlo & _ & _ & Hz).
  - apply list_elem_of_here.
  - intros e' He'. repeat (apply elem_of_cons in He' as [-> | He']; [discriminate|]).
    inversion He'.
  - apply list_elem_of_here.
  - reflexivity.
  - exists lo. eexists. split; [exact Hlo|]. split; [exact Hz|].
    vm_compute in Hb'. injection Hb' as <-. split; reflexivity.
Defined.

Lemma close_face_triangle_and_quad_witness :
  close_face sq_length triangle_mesh [1; 2]%nat 0%nat
    = Some (Ok (Triangle ([1; 2] ++ [0])%nat))
  /\ close_face sq_length quad_mesh [1; 2; 3]%nat 0%nat
    = Some (Ok (Quad ([1; 2] ++ [0; 3])%nat)).
Proof.
  split.
  - apply (proj1 (close_face_triangle_and_quad sq_length triangle_mesh [1; 2]%nat 0%nat)).
    reflexivity.
  - apply (proj2 (close_face_triangle_and_quad sq_length quad_mesh [1; 2; 3]%nat 0%nat)).
    exists 2%nat, 3%nat, 3%nat. repeat split. discriminate.
Defined.

(** ** Dispatch on the roof type *)

Lemma select_false_selected (fs : list BMFace) (s : Scene) (f : BMFace) :
  f ∈ selected (select fs false s) <-> f ∈ selected s /\ f ∉ fs.
Proof. unfold select. simpl. apply list_elem_of_difference. Qed.

(** C10.  For a roof type other than [FLAT], [GABLE] and [HIP] no branch of
    [create_roof] is taken: what it leaves is the scene it was given with
    the input faces deselected, the vertices, edges and faces of the mesh
    and the face-map groups being as they were. *)
Theorem create_roof_unknown_type_only_deselects
    (create_flat_roof create_gable_roof create_hip_roof :
       Scene -> list BMFace -> RoofProperty.t -> result Scene)
    (add_facemap_for_groups : FaceMap -> Scene -> Scene)
    (s : Scene) (fs : list BMFace) (prop : RoofProperty.t) :
  RoofProperty.type prop <> "FLAT" ->
  RoofProperty.type prop <> "GABLE" ->
  RoofProperty.type prop <> "HIP" ->
  exists s',
    create_roof create_flat_roof create_gable_roof create_hip_roof
      add_facemap_for_groups s fs prop = Ok s' /\
    mesh s' = mesh s /\ groups s' = groups s /\
    forall f, f ∈ selected s' <-> f ∈ selected s /\ f ∉ fs.
Proof.
  intros Hflat Hgable Hhip. exists (select fs false s). split.
  - unfold create_roof.
    apply String.eqb_neq in Hflat, Hgable, Hhip. now rewrite Hflat, Hgable, Hhip.
  - split; [reflexivity|]. split; [reflexivity|].
    intros f. apply select_false_selected.
Qed.

Lemma create_roof_unknown_type_only_deselects_witness :
  exists s',
    create_roof wipe wipe wipe (fun _ s => s) scene0 [1; 2]%nat shed_prop = Ok s' /\
    mesh s' = gable_faces /\ groups s' = [WALLS] /\
    forall f, f ∈ selected s' <-> f ∈ [0; 1; 2]%nat /\ f ∉ [1; 2]%nat.
Proof.
  apply (create_roof_unknown_type_only_deselects
           wipe wipe wipe (fun _ s => s) scene0 [1; 2]%nat shed_prop);
    discriminate.
Defined.

(** The known types do reach their constructions. *)
Example create_roof_hip_dispatches :
  create_roof wipe wipe wipe (fun _ s => s) scene0 [1; 2]%nat
    (RoofProperty.mk "HIP" "OPEN" 2 (1 # 10) (3 # 10))
  = Ok (mkScene (mkBMesh [] [] []) [] []).
Proof. reflexivity. Qed.

(** * Further properties of [roof_types.py] *)

(** ** Loops with an invariant *)

(** A loop whose body, under an invariant [I] that later states keep, never
    raises, moves the state along the preorder [R] and establishes [Q a] for
    the element [a] it handles, ends normally with [Q a] for every element,
    [Q] being kept by later states. *)
Lemma for_each_spec {S A} (f : S -> A -> result S) (R : S -> S -> Prop)
    (I : S -> Prop) (Q : A -> S -> Prop) (l : list A) :
  (forall s, R s s) ->
  (forall s1 s2 s3, R s1 s2 -> R s2 s3 -> R s1 s3) ->
  (forall s s', I s -> R s s' -> I s') ->
  (forall a s s', Q a s -> R s s' -> Q a s') ->
  (forall s a, a ∈ l -> I s -> exists s', f s a = Ok s' /\ R s s' /\ Q a s') ->
  forall s, I s -> exists s', for_each f l s = Ok s' /\ R s s' /\ forall a, a ∈ l -> Q a s'.
Proof.
  intros Hrefl Htrans HI HQ. induction l as [|a l IH]; intros Hstep s Hs; simpl.
  - exists s. split; [reflexivity|]. split; [apply Hrefl|]. intros a Ha. inversion Ha.
  - destruct (Hstep s a) as (s1 & Hs1 & HR1 & HQ1); [apply list_elem_of_here | exact Hs |].
    destruct (IH (fun s a Ha => Hstep s a (list_elem_of_further _ _ _ Ha)) s1)
      as (s2 & Hs2 & HR2 & HQ2); [eauto|].
    exists s2. split; [apply bind_Ok; eauto|]. split; [eauto|].
    intros a' Ha'. apply elem_of_cons in Ha' as [-> | Ha']; eauto.
Qed.

(** ** What the lifting loop keeps *)

Lemma edge_exists_Some (b : BMesh) (v1 v2 : BMVert) (e : BMEdge) :
  edge_exists b v1 v2 = Some e ->
  edges b !! e = Some (v1, v2) \/ edges b !! e = Some (v2, v1).
Proof.
  unfold edge_exists. intros H. apply fmap_Some in H as ([i ev] & Hfind & ->).
  apply list_find_Some in Hfind as (Hi & Huses & _). simpl.
  unfold uses in Huses. apply orb_true_iff in Huses as [H | H];
    apply bool_decide_eq_true in H; subst ev; auto.
Qed.

Lemma joins_two_mono (b b' : BMesh) (e : BMEdge) :
  verts b `prefix_of` verts b' -> edges b `prefix_of` edges b' ->
  joins_two b e -> joins_two b' e.
Proof.
  intros [nv Hv] [ne He] (v1 & v2 & Hl & Hne & H1 & H2).
  exists v1, v2. rewrite He, Hv, length_app.
  split; [now apply lookup_app_l_Some|]. split; [exact Hne|]. lia.
Qed.

Lemma present_mono (equal : Q -> Q -> bool) (loc : Point2.t) (vs vs' : list Vector.t) :
  vs `prefix_of` vs' -> present equal loc vs -> present equal loc vs'.
Proof.
  intros [new ->] (i & co & Hi & Hat). exists i, co. split; [|exact Hat].
  now apply lookup_app_l_Some.
Qed.

Lemma no_vertex_over_snoc (equal : Q -> Q -> bool) (n0 : nat) (vs : list Vector.t)
    (loc : Point2.t) (z : Q) :
  vert_at_loc equal loc vs None = None ->
  no_vertex_over equal n0 vs ->
  no_vertex_over equal n0 (vs ++ [Vector.mk (Point2.x loc) (Point2.y loc) z]).
Proof.
  intros Hnone Hinv i j ci cj Hij Hn0 Hi Hj.
  apply lookup_app_Some in Hj as [Hj | [Hlen Hj]].
  - apply (Hinv i j ci cj Hij Hn0); [|exact Hj].
    apply lookup_lt_Some in Hj.
    rewrite lookup_app_l in Hi by lia. exact Hi.
  - destruct (j - length vs) as [|k] eqn:Hk; [|destruct k; discriminate].
    injection Hj as <-. simpl.
    rewrite lookup_app_l in Hi by lia.
    pose proof (proj1 (vert_at_loc_None equal loc vs None) Hnone i ci Hi) as Hat.
    destruct loc as [lx ly]. exact Hat.
Qed.

Section LiftKeeps.

Variable equal : Q -> Q -> bool.
Variable skeleton : list Subtree.
Variable median : Vector.t.
Variable scale : Q.
Variable n0 : nat.

Lemma lift_rel_refl (st : Lift) : lift_rel equal n0 st st.
Proof. unfold lift_rel. split_and!; done. Qed.

Lemma lift_rel_trans (s1 s2 s3 : Lift) :
  lift_rel equal n0 s1 s2 -> lift_rel equal n0 s2 s3 -> lift_rel equal n0 s1 s3.
Proof.
  intros (V1 & E1 & F1 & SE1 & SV1 & N1 & W1) (V2 & E2 & F2 & SE2 & SV2 & N2 & W2).
  unfold lift_rel. split_and!; try (etrans; eassumption); try congruence; auto.
Qed.

(** Resolving the source: the vertex taken is one of the mesh, and the mesh
    then has a vertex at the source when [equal] holds of equal floats. *)
Lemma lift_source_keeps (st : Lift) (arc : Subtree) :
  arc ∈ skeleton ->
  exists st' v,
    lift_source equal skeleton median scale st arc = Ok (st', v) /\
    lift_rel equal n0 st st' /\ v < length (verts (bm st')) /\
    ((forall q, equal q q = true) -> present equal (source arc) (verts (bm st'))).
Proof.
  intros Harc.
  destruct (lift_source_cases equal skeleton median scale st arc Harc)
    as [(v & Hloc & ->) | (h & Hloc & _ & ->)]; eexists _, _; (split; [reflexivity|]).
  - apply vert_at_loc_Some in Hloc as (co & Hv & Hat & _).
    split; [apply lift_rel_refl|]. split; [now apply lookup_lt_Some in Hv|].
    intros _. now exists v, co.
  - split; [|split].
    + unfold lift_rel. simpl. split_and!; try done; try (now apply prefix_app_r).
      * now apply no_vertex_over_snoc.
      * intros [Hwe Hwv]. split; simpl.
        -- eapply Forall_impl; [exact Hwe|]. intros e. apply joins_two_mono; simpl; try done.
           now apply prefix_app_r.
        -- apply Forall_app. split.
           ++ eapply Forall_impl; [exact Hwv|]. intros v Hv. simpl in Hv.
              rewrite length_app. simpl. lia.
           ++ constructor; [|constructor]. rewrite length_app. simpl. lia.
    + simpl. rewrite length_app. simpl. lia.
    + intros Hrefl. simpl. eexists (length (verts (bm st))), _. split.
      * rewrite lookup_app_r by lia. now rewrite Nat.sub_diag.
      * unfold at_loc. simpl. now rewrite !Hrefl.
Qed.

Lemma lift_sink_keeps (vsource : BMVert) (arc : Subtree) (st : Lift) (sink : Point2.t) :
  arc ∈ skeleton -> sink ∈ sinks arc ->
  vsource < length (verts (bm st)) ->
  exists st',
    lift_sink equal skeleton median scale vsource st sink = Ok st' /\
    lift_rel equal n0 st st' /\
    ((forall q, equal q q = true) -> present equal sink (verts (bm st'))).
Proof.
  intros Harc Hsink Hvs. unfold lift_sink.
  assert (exists b' vs,
            lift_sink_vert equal skeleton median scale (bm st) sink = Ok (b', vs) /\
            verts (bm st) `prefix_of` verts b' /\ edges b' = edges (bm st) /\
            faces b' = faces (bm st) /\ vs < length (verts b') /\
            (no_vertex_over equal n0 (verts (bm st)) -> no_vertex_over equal n0 (verts b')) /\
            ((forall q, equal q q = true) -> present equal sink (verts b')))
    as (b' & vs & -> & HV & HE & HF & Hvalid & HN & HP).
  { destruct (lift_sink_vert_cases equal skeleton median scale (bm st) arc sink Harc Hsink)
      as [(v & Hloc & ->) | (h & Hloc & _ & ->)]; eexists _, _; (split; [reflexivity|]).
    - apply vert_at_loc_Some in Hloc as (co & Hv & Hat & _).
      repeat split; try done. { now apply lookup_lt_Some in Hv. }
      intros _. now exists v, co.
    - simpl. repeat split; try done.
      + now apply prefix_app_r.
      + rewrite length_app. simpl. lia.
      + now apply no_vertex_over_snoc.
      + intros Hrefl. eexists (length (verts (bm st))), _. split.
        * rewrite lookup_app_r by lia. now rewrite Nat.sub_diag.
        * unfold at_loc. simpl. now rewrite !Hrefl. }
  simpl. pose proof (prefix_length _ _ HV) as Hlen.
  destruct (bool_decide (vs ≠ vsource)) eqn:Hne.
  - apply bool_decide_eq_true in Hne. unfold create_edge.
    destruct (edge_exists b' vsource vs) as [e|] eqn:Hex.
    + eexists. split; [reflexivity|]. split; [|exact HP].
      unfold lift_rel. simpl. rewrite HE. split_and!; try done; try (now apply prefix_app_r).
      intros [Hwe Hwv]. split; simpl.
      * apply Forall_app. split.
        -- eapply Forall_impl; [exact Hwe|]. intros e'. apply joins_two_mono; [done|].
           now rewrite HE.
        -- constructor; [|constructor].
           apply edge_exists_Some in Hex as [Hl | Hl]; eexists _, _;
             (split; [exact Hl|]); repeat split; try lia; congruence.
      * apply Forall_app. split.
        -- eapply Forall_impl; [exact Hwv|]. intros v Hv. simpl in Hv. lia.
        -- constructor; [exact Hvalid | constructor].
    + eexists. split; [reflexivity|]. split; [|exact HP].
      unfold lift_rel. simpl. rewrite HE.
      split_and!; try done; try (now apply prefix_app_r).
      intros [Hwe Hwv]. split; simpl.
      * apply Forall_app. split.
        -- eapply Forall_impl; [exact Hwe|]. intros e'. apply joins_two_mono; simpl; [done|].
           now apply prefix_app_r.
        -- constructor; [|constructor]. exists vsource, vs. simpl.
           split; [now apply list_lookup_middle|]. split; [congruence | lia].
      * apply Forall_app. split.
        -- eapply Forall_impl; [exact Hwv|]. intros v Hv. simpl in Hv. lia.
        -- constructor; [exact Hvalid | constructor].
  - eexists. split; [reflexivity|]. split; [|exact HP].
    unfold lift_rel. simpl. rewrite HE.
    split_and!; try done; try (now apply prefix_app_r).
    intros [Hwe Hwv]. split; simpl.
    + eapply Forall_impl; [exact Hwe|]. intros e'. apply joins_two_mono; [done|].
      now rewrite HE.
    + apply Forall_app. split.
      * eapply Forall_impl; [exact Hwv|]. intros v Hv. simpl in Hv. lia.
      * constructor; [exact Hvalid | constructor].
Qed.

Lemma lift_arc_keeps (st : Lift) (arc : Subtree) :
  arc ∈ skeleton ->
  exists st',
    lift_arc equal skeleton median scale st arc = Ok st' /\
    lift_rel equal n0 st st' /\
    ((forall q, equal q q = true) ->
     present equal (source arc) (verts (bm st')) /\
     forall sink, sink ∈ sinks arc -> present equal sink (verts (bm st'))).
Proof.
  intros Harc. unfold lift_arc.
  destruct (lift_source_keeps st arc Harc) as (st1 & v & -> & HR1 & Hv & HP1). simpl.
  destruct (for_each_spec (lift_sink equal skeleton median scale v) (lift_rel equal n0)
              (fun s => v < length (verts (bm s)))
              (fun sink s => (forall q, equal q q = true) -> present equal sink (verts (bm s)))
              (sinks arc))
    with (s := st1) as (st2 & -> & HR2 & HP2).
  - apply lift_rel_refl.
  - apply lift_rel_trans.
  - intros s s' Hs (HV & _). apply prefix_length in HV. lia.
  - intros sink s s' HQ (HV & _) Hrefl. eapply present_mono; [exact HV | auto].
  - intros s sink Hsink Hs. now apply (lift_sink_keeps v arc).
  - exact Hv.
  - exists st2. split; [reflexivity|]. split; [now apply lift_rel_trans with st1|].
    intros Hrefl. split; [|auto].
    destruct HR2 as (HV & _). eapply present_mono; [exact HV | auto].
Qed.

Lemma lift_arcs_keeps (arcs : list Subtree) (st : Lift) :
  (forall a, a ∈ arcs -> a ∈ skeleton) ->
  exists st',
    lift_arcs equal skeleton median scale arcs st = Ok st' /\
    lift_rel equal n0 st st' /\
    ((forall q, equal q q = true) ->
     forall arc, arc ∈ arcs ->
       present equal (source arc) (verts (bm st')) /\
       forall sink, sink ∈ sinks arc -> present equal sink (verts (bm st'))).
Proof.
  intros Hsub. unfold lift_arcs.
  destruct (for_each_spec (lift_arc equal skeleton median scale) (lift_rel equal n0)
              (fun _ => True)
              (fun arc s => (forall q, equal q q = true) ->
                 present equal (source arc) (verts (bm s)) /\
                 forall sink, sink ∈ sinks arc -> present equal sink (verts (bm s)))
              arcs)
    with (s := st) as (st' & Hst' & HR & HQ).
  - apply lift_rel_refl.
  - apply lift_rel_trans.
  - auto.
  - intros arc s s' HQ (HV & _) Hrefl. destruct (HQ Hrefl) as [Hs Hk].
    split; [eapply present_mono; eauto|].
    intros sink Hsink. eapply present_mono; eauto.
  - intros s a Ha _. now apply lift_arc_keeps, Hsub.
  - exact Logic.I.
  - exists st'. split; [exact Hst'|]. split; [exact HR|].
    intros Hrefl arc Harc. now apply HQ.
Qed.

End LiftKeeps.

(** X1.  The three outcomes of the height scale: [ValueError] for an empty
    skeleton, from [max]; [ZeroDivisionError] when the greatest height is
    zero; otherwise the scale [height / M] for the greatest height [M],
    which takes [M] to the configured height. *)
Theorem height_scale_outcomes (H : Q) (skeleton : list Subtree) :
  match height_scale H skeleton with
  | Raise e =>
      (skeleton = [] /\ e = ValueError) \/
      (e = ZeroDivisionError /\
       exists a, a ∈ skeleton /\ height a == 0 /\
                 forall a', a' ∈ skeleton -> (height a' <= height a)%Q)
  | Ok hs =>
      exists a, a ∈ skeleton /\ ~ height a == 0 /\
                (forall a', a' ∈ skeleton -> (height a' <= height a)%Q) /\
                hs = (H / height a)%Q /\ height a * hs == H
  end.
Proof.
  unfold height_scale. destruct skeleton as [|a0 sk]; [left; now split|].
  destruct (max_nonempty (map height (a0 :: sk))) as [M HM]; [discriminate|].
  rewrite HM. simpl. unfold mbind, result_bind, Py.bind, Py.div.
  apply max_Ok in HM as [Hin Hge].
  change (map height ?l) with (height <$> l) in Hin, Hge.
  apply list_elem_of_fmap in Hin as (a & -> & Ha).
  assert (forall a', a' ∈ a0 :: sk -> (height a' <= height a)%Q) as Hle.
  { intros a' Ha'. apply Hge. now apply list_elem_of_fmap_2. }
  destruct (Qeq_bool (height a) 0) eqn:Hz.
  - right. split; [reflexivity|]. exists a. apply Qeq_bool_iff in Hz. auto.
  - exists a. assert (~ height a == 0) as Hnz.
    { intros Heq. apply Qeq_bool_iff in Heq. congruence. }
    repeat split; try done. now apply Qmult_div_r.
Qed.

(** X2.  Whatever the skeleton and the scale, the loop of
    [create_skeleton_verts_and_edges] ends normally, and it only appends:
    the vertices and edges the mesh had keep their places, and its faces
    are as they were. *)
Theorem lifting_never_raises_and_only_appends
    (equal : Q -> Q -> bool) (b : BMesh) (skeleton : list Subtree)
    (median : Vector.t) (hs : Q) :
  exists st,
    create_skeleton_verts_and_edges equal b skeleton median hs = Ok st /\
    verts b `prefix_of` verts (bm st) /\
    edges b `prefix_of` edges (bm st) /\
    faces (bm st) = faces b.
Proof.
  destruct (lift_arcs_keeps equal skeleton median hs 0 skeleton (mkLift b [] []))
    as (st & Hst & (HV & HE & HF & _) & _); [auto|].
  exists st. now repeat split.
Qed.

(** X3.  Lifting fails exactly as its scale does: the loop adds no way to
    raise to those of [prop.height / max(...)]. *)
Theorem scale_and_lift_raises_as_height_scale
    (equal : Q -> Q -> bool) (b : BMesh) (skeleton : list Subtree)
    (median : Vector.t) (H : Q) (e : exn) :
  scale_and_lift equal b skeleton median H = Raise e <->
  height_scale H skeleton = Raise e.
Proof.
  unfold scale_and_lift. destruct (height_scale H skeleton) as [hs|e'] eqn:Hhs; simpl.
  - destruct (lift_arcs_keeps equal skeleton median hs 0 skeleton (mkLift b [] []))
      as (st & Hst & _); [auto|].
    unfold lift_arcs in Hst. unfold mbind, result_bind, Py.bind, create_skeleton_verts_and_edges.
    rewrite Hst. split; discriminate.
  - unfold mbind, result_bind, Py.bind. split; congruence.
Qed.

(** X4.  Every edge the loop hands on as a skeleton edge is an edge of the
    mesh that joins two different vertices of the mesh, and every vertex it
    hands on as a skeleton vertex is a vertex of the mesh. *)
Theorem skeleton_edges_join_two_vertices
    (equal : Q -> Q -> bool) (b : BMesh) (skeleton : list Subtree)
    (median : Vector.t) (hs : Q) :
  exists st,
    create_skeleton_verts_and_edges equal b skeleton median hs = Ok st /\
    (forall e, e ∈ skeleton_edges st -> joins_two (bm st) e) /\
    (forall v, v ∈ skeleton_verts st -> v < length (verts (bm st))).
Proof.
  destruct (lift_arcs_keeps equal skeleton median hs 0 skeleton (mkLift b [] []))
    as (st & Hst & (_ & _ & _ & _ & _ & _ & Hwf) & _); [auto|].
  exists st. split; [exact Hst|].
  destruct Hwf as [Hwe Hwv]; [split; constructor|].
  split; intros x Hx.
  - eapply Forall_forall in Hwe; eauto.
  - eapply (proj1 (Forall_forall _ _) Hwv); eauto.
Qed.

(** X5.  The loop never puts a vertex where the mesh has one: a vertex it
    adds has none of the vertices before it, those of the mesh it was given
    and those it added earlier, at its [x] and [y]. *)
Theorem no_vertex_is_made_over_another
    (equal : Q -> Q -> bool) (b : BMesh) (skeleton : list Subtree)
    (median : Vector.t) (hs : Q) :
  exists st,
    create_skeleton_verts_and_edges equal b skeleton median hs = Ok st /\
    forall i j ci cj,
      i < j -> length (verts b) <= j ->
      verts (bm st) !! i = Some ci -> verts (bm st) !! j = Some cj ->
      (equal (Vector.x ci) (Vector.x cj) && equal (Vector.y ci) (Vector.y cj)) = false.
Proof.
  destruct (lift_arcs_keeps equal skeleton median hs (length (verts b)) skeleton
              (mkLift b [] []))
    as (st & Hst & (_ & _ & _ & _ & _ & Hno & _) & _); [auto|].
  exists st. split; [exact Hst|].
  intros i j ci cj Hij Hj Hi Hcj.
  assert (no_vertex_over equal (length (verts b)) (verts b)) as Hinit.
  { intros i' j' ci' cj' _ Hn0 _ Hj'. apply lookup_lt_Some in Hj'. lia. }
  pose proof (Hno Hinit i j ci cj Hij Hj Hi Hcj) as Hat.
  unfold at_loc in Hat. simpl in Hat.
  now destruct (equal (Vector.x ci) (Vector.x cj) && equal (Vector.y ci) (Vector.y cj)).
Qed.

(** X6.  When [equal] holds of a float and itself, the mesh has, after the
    loop, a vertex at the [x] and [y] of the source and of every sink of
    every arc of the skeleton. *)
Theorem every_skeleton_point_gets_a_vertex
    (equal : Q -> Q -> bool) (b : BMesh) (skeleton : list Subtree)
    (median : Vector.t) (hs : Q) :
  (forall q, equal q q = true) ->
  exists st,
    create_skeleton_verts_and_edges equal b skeleton median hs = Ok st /\
    forall arc, arc ∈ skeleton ->
      present equal (source arc) (verts (bm st)) /\
      forall sink, sink ∈ sinks arc -> present equal sink (verts (bm st)).
Proof.
  intros Hrefl.
  destruct (lift_arcs_keeps equal skeleton median hs 0 skeleton (mkLift b [] []))
    as (st & Hst & _ & Hpresent); [auto|].
  exists st. split; [exact Hst | auto].
Qed.

Lemma equal_eps_refl (q : Q) : equal_eps q q = true.
Proof.
  unfold equal_eps. apply Qle_bool_iff.
  assert (q - q == 0) as -> by ring. discriminate.
Qed.

Lemma every_skeleton_point_gets_a_vertex_witness :
  exists st,
    create_skeleton_verts_and_edges equal_eps rectangle rectangle_skeleton (Vec 2 1 3) 2
      = Ok st /\
    forall arc, arc ∈ rectangle_skeleton ->
      present equal_eps (source arc) (verts (bm st)) /\
      forall sink, sink ∈ sinks arc -> present equal_eps sink (verts (bm st)).
Proof.
  apply (every_skeleton_point_gets_a_vertex
           equal_eps rectangle rectangle_skeleton (Vec 2 1 3) 2).
  exact equal_eps_refl.
Defined.

(** ** [vert_at_loc] with a height *)

Lemma at_loc_falsy (equal : Q -> Q -> bool) (loc : Point2.t) (lz : Q) (co : Vector.t) :
  lz == 0 -> at_loc equal loc (Some lz) co = at_loc equal loc None co.
Proof.
  intros Hz. unfold at_loc, truthy. apply Qeq_bool_iff in Hz. now rewrite Hz.
Qed.

(** X7.  A height [loc_z] of zero is not a height to [vert_at_loc]: [if
    loc_z:] takes it for no height, and the lookup is the one on [x] and
    [y] alone. *)
Theorem vert_at_loc_ignores_zero_loc_z
    (equal : Q -> Q -> bool) (loc : Point2.t) (vs : list Vector.t) (lz : Q) :
  lz == 0 ->
  vert_at_loc equal loc vs (Some lz) = vert_at_loc equal loc vs None.
Proof.
  intros Hz. unfold vert_at_loc.
  rewrite (list_filter_iff (fun r : nat * Vector.t => at_loc equal loc (Some lz) r.2 = true)
             (fun r => at_loc equal loc None r.2 = true)); [reflexivity|].
  intros [i co]. simpl. now rewrite (at_loc_falsy equal loc lz co Hz).
Qed.

Lemma vert_at_loc_ignores_zero_loc_z_witness :
  vert_at_loc equal_eps (Pt 2 2) [Vec 2 2 0; Vec 2 2 3] (Some 0%Q)
  = vert_at_loc equal_eps (Pt 2 2) [Vec 2 2 0; Vec 2 2 3] None.
Proof.
  apply (vert_at_loc_ignores_zero_loc_z equal_eps (Pt 2 2) [Vec 2 2 0; Vec 2 2 3] 0%Q).
  reflexivity.
Defined.

(** X8.  With a height [loc_z] that is not zero, the vertex [vert_at_loc]
    answers is [equal] to the location in [x], in [y] and in [z], and it
    answers [None] exactly when no vertex is. *)
Theorem vert_at_loc_with_height
    (equal : Q -> Q -> bool) (loc : Point2.t) (vs : list Vector.t) (lz : Q) :
  ~ lz == 0 ->
  (forall v, vert_at_loc equal loc vs (Some lz) = Some v ->
     exists co, vs !! v = Some co /\
       equal (Vector.x co) (Point2.x loc) = true /\
       equal (Vector.y co) (Point2.y loc) = true /\
       equal (Vector.z co) lz = true)
  /\
  (vert_at_loc equal loc vs (Some lz) = None <->
   forall i co, vs !! i = Some co ->
     (equal (Vector.x co) (Point2.x loc) && equal (Vector.y co) (Point2.y loc)
      && equal (Vector.z co) lz) = false).
Proof.
  intros Hnz. apply truthy_iff in Hnz.
  assert (forall co, at_loc equal loc (Some lz) co =
            equal (Vector.x co) (Point2.x loc) && equal (Vector.y co) (Point2.y loc)
            && equal (Vector.z co) lz) as Hat.
  { intros co. unfold at_loc. rewrite Hnz.
    now destruct (equal (Vector.x co) (Point2.x loc) && equal (Vector.y co) (Point2.y loc)). }
  split.
  - intros v Hv. apply vert_at_loc_Some in Hv as (co & Hco & Hm & _).
    rewrite Hat in Hm. apply andb_true_iff in Hm as [Hxy Hz].
    apply andb_true_iff in Hxy as [Hx Hy]. now exists co.
  - rewrite vert_at_loc_None. split; intros Hall i co Hi.
    + rewrite <- Hat. now apply (Hall i).
    + rewrite Hat. now apply (Hall i).
Qed.

Lemma vert_at_loc_with_height_witness :
  (forall v, vert_at_loc equal_eps (Pt 2 2) [Vec 2 2 0; Vec 2 2 3] (Some 3%Q) = Some v ->
     exists co, [Vec 2 2 0; Vec 2 2 3] !! v = Some co /\
       equal_eps (Vector.x co) 2 = true /\ equal_eps (Vector.y co) 2 = true /\
       equal_eps (Vector.z co) 3 = true)
  /\
  (vert_at_loc equal_eps (Pt 2 2) [Vec 2 2 0; Vec 2 2 3] (Some 3%Q) = None <->
   forall i co, [Vec 2 2 0; Vec 2 2 3] !! i = Some co ->
     (equal_eps (Vector.x co) 2 && equal_eps (Vector.y co) 2
      && equal_eps (Vector.z co) 3) = false).
Proof.
  apply (vert_at_loc_with_height equal_eps (Pt 2 2) [Vec 2 2 0; Vec 2 2 3] 3%Q).
  discriminate.
Defined.

(** ** Linked edges and closest pairs *)

Lemma link_edges_elem (b : BMesh) (v : BMVert) (e : BMEdge) :
  e ∈ link_edges b v <->
  exists v1 v2, edges b !! e = Some (v1, v2) /\ (v = v1 \/ v = v2).
Proof.
  unfold link_edges. rewrite list_elem_of_fmap. split.
  - intros ([i [v1 v2]] & -> & Hin). apply list_elem_of_filter in Hin as [Huse Hin].
    apply enumerate_elem in Hin. simpl in *. eauto.
  - intros (v1 & v2 & He & Huse). exists (e, (v1, v2)). split; [reflexivity|].
    apply list_elem_of_filter. split; [exact Huse | now apply enumerate_elem].
Qed.

(** [get_linked_edges] answers the edges of [filter_edges] that have
    one of the given vertices as an end, and no other edge. *)
Lemma get_linked_edges_spec
    (b : BMesh) (vs : list BMVert) (filter_edges : list BMEdge) (e : BMEdge) :
  e ∈ get_linked_edges b vs filter_edges <->
  e ∈ filter_edges /\
  exists v v1 v2, v ∈ vs /\ edges b !! e = Some (v1, v2) /\ (v = v1 \/ v = v2).
Proof.
  unfold get_linked_edges. rewrite list_elem_of_filter, flat_map_elem. split.
  - intros [Hin (v & Hv & He)]. split; [exact Hin|].
    apply link_edges_elem in He as (v1 & v2 & He & Huse). eauto 6.
  - intros [Hin (v & v1 & v2 & Hv & He & Huse)]. split; [exact Hin|].
    exists v. split; [exact Hv|]. apply link_edges_elem. eauto.
Qed.

Section ClosestPair.

Variable vec_length : Vector.t -> Q.

Lemma pairs_elem (edges_a edges_b : list BMEdge) (e1 e2 : BMEdge) :
  (e1, e2) ∈ (x ← edges_a; y ← edges_b; [(x, y)]) <-> e1 ∈ edges_a /\ e2 ∈ edges_b.
Proof.
  rewrite list_elem_of_bind. split.
  - intros (x & Hin & Hx). apply list_elem_of_bind in Hin as (y & Hin & Hy).
    apply list_elem_of_singleton in Hin as [= -> ->]. now split.
  - intros [H1 H2]. exists e1. split; [|exact H1].
    apply list_elem_of_bind. exists e2. split; [apply list_elem_of_here | exact H2].
Qed.

Lemma find_closest_pair_edges_Ok (b : BMesh) (edges_a edges_b : list BMEdge) :
  edges_a <> [] -> edges_b <> [] ->
  exists e1 e2, find_closest_pair_edges vec_length b edges_a edges_b = Ok (e1, e2).
Proof.
  intros Ha Hb. unfold find_closest_pair_edges.
  destruct (edges_a ≫= _) as [|p pairs] eqn:Hpairs.
  - exfalso. destruct edges_a as [|x xs]; [congruence|].
    destruct edges_b as [|y ys]; [congruence|].
    assert ((x, y) ∈ (x' ← x :: xs; y' ← y :: ys; [(x', y')])) as Hin.
    { apply pairs_elem. split; apply list_elem_of_here. }
    rewrite Hpairs in Hin. inversion Hin.
  - destruct (min_from (length_func vec_length b) p pairs) as [e1 e2]. eauto.
Qed.

End ClosestPair.

(** X10.  [find_closest_pair_edges] raises [IndexError] when one of the two
    lists is empty; otherwise it answers an edge of the first list and an
    edge of the second, and no other such pair has its medians closer. *)
Theorem find_closest_pair_edges_spec
    (vec_length : Vector.t -> Q) (b : BMesh) (edges_a edges_b : list BMEdge) :
  (edges_a = [] \/ edges_b = [] ->
   find_closest_pair_edges vec_length b edges_a edges_b = Raise IndexError)
  /\
  (edges_a <> [] -> edges_b <> [] ->
   exists e1 e2,
     find_closest_pair_edges vec_length b edges_a edges_b = Ok (e1, e2) /\
     e1 ∈ edges_a /\ e2 ∈ edges_b /\
     forall x y, x ∈ edges_a -> y ∈ edges_b ->
       (length_func vec_length b (e1, e2) <= length_func vec_length b (x, y))%Q).
Proof.
  split.
  - intros [-> | ->]; unfold find_closest_pair_edges; [reflexivity|].
    destruct (edges_a ≫= _) as [|p pairs] eqn:Hpairs; [reflexivity|].
    assert (p ∈ (x ← edges_a; y ← []; [(x, y)])) as Hin.
    { rewrite Hpairs. apply list_elem_of_here. }
    destruct p as [x y]. apply pairs_elem in Hin as [_ Hin]. inversion Hin.
  - intros Ha Hb.
    destruct (find_closest_pair_edges_Ok vec_length b edges_a edges_b Ha Hb)
      as (e1 & e2 & Hfind).
    exists e1, e2. split; [exact Hfind|].
    destruct (find_closest_pair_edges_elem vec_length b edges_a edges_b e1 e2 Hfind)
      as [H1 H2].
    split; [exact H1|]. split; [exact H2|].
    intros x y Hx Hy. unfold find_closest_pair_edges in Hfind.
    destruct (edges_a ≫= _) as [|p pairs] eqn:Hpairs; [discriminate|].
    injection Hfind as Hmin. rewrite <- Hmin.
    apply (min_from_le (length_func vec_length b)).
    rewrite <- Hpairs. now apply pairs_elem.
Qed.

Lemma find_closest_pair_edges_spec_witness :
  find_closest_pair_edges sq_length facet_mesh [] [4%nat] = Raise IndexError
  /\ exists e1 e2,
       find_closest_pair_edges sq_length facet_mesh [3; 5]%nat [4; 6]%nat = Ok (e1, e2) /\
       e1 ∈ [3; 5]%nat /\ e2 ∈ [4; 6]%nat /\
       forall x y, x ∈ [3; 5]%nat -> y ∈ [4; 6]%nat ->
         (length_func sq_length facet_mesh (e1, e2) <= length_func sq_length facet_mesh (x, y))%Q.
Proof.
  split.
  - apply (proj1 (find_closest_pair_edges_spec sq_length facet_mesh [] [4%nat])).
    now left.
  - apply (proj2 (find_closest_pair_edges_spec sq_length facet_mesh [3; 5]%nat [4; 6]%nat));
      discriminate.
Defined.

(** ** Outcomes of the closure walk *)

Lemma edges_get_Ok (b : BMesh) (vs : list BMVert) (r : option BMEdge) :
  edges_get b vs = Ok r -> exists v1 v2, vs = [v1; v2] /\ r = edge_exists b v1 v2.
Proof.
  destruct vs as [|v1 [|v2 [|v3 vs]]]; try discriminate. intros [= <-]. eauto.
Qed.

Lemma edges_get_Raise (b : BMesh) (vs : list BMVert) (e : exn) :
  edges_get b vs = Raise e -> e = TypeError.
Proof. destruct vs as [|v1 [|v2 [|v3 vs]]]; now intros [= <-]. Qed.

Section WalkOutcomes.

Variable vec_length : Vector.t -> Q.

(** From a front of two vertices the walk raises nothing but the
    [TypeError] of [bm.edges.get]. *)
Lemma cycle_walk_raises_TypeError (fuel : nat) :
  forall (b : BMesh) (v1 v2 : BMVert) (skeleton_edges linked_edges : list BMEdge)
         (n : nat) (e : exn),
  cycle_walk vec_length fuel b [v1; v2] skeleton_edges linked_edges = Some (n, Raise e) ->
  e = TypeError.
Proof.
  induction fuel as [|fuel IH]; intros b v1 v2 ske linked n e; [discriminate|].
  rewrite cycle_walk_S. cbv zeta.
  destruct (bool_decide _ || bool_decide _) eqn:Hstuck; [discriminate|].
  apply orb_false_iff in Hstuck as [Hv1 Hv2].
  apply bool_decide_eq_false in Hv1, Hv2.
  destruct (find_closest_pair_edges_Ok vec_length b _ _ Hv1 Hv2) as (e1 & e2 & ->).
  destruct (bool_decide _); [discriminate|].
  destruct (edges_get b _) as [[edge|]|e'] eqn:Hget; try discriminate.
  - apply edges_get_Ok in Hget as (o1 & o2 & -> & _).
    destruct (cycle_walk vec_length fuel b [o1; o2] ske (linked ++ [e1; e2]))
      as [[n' r']|] eqn:Hrec; [|discriminate].
    simpl. intros Heq. injection Heq as _ ->. now apply IH in Hrec.
  - intros [= _ <-]. now apply edges_get_Raise in Hget.
Qed.

(** The chain the walk returns holds the edges it was given, two more for
    each recursive call, and at most three on top; the others are skeleton
    edges, but for an edge of the mesh that closes the chain. *)
Lemma cycle_walk_chain (fuel : nat) :
  forall (b : BMesh) (vs : list BMVert) (skeleton_edges linked_edges : list BMEdge)
         (n : nat) (es : list BMEdge),
  cycle_walk vec_length fuel b vs skeleton_edges linked_edges = Some (n, Ok es) ->
  (forall e, e ∈ linked_edges -> e ∈ es) /\
  (forall e, e ∈ es ->
     e ∈ linked_edges \/ e ∈ skeleton_edges \/
     exists o1 o2, edge_exists b o1 o2 = Some e) /\
  length linked_edges + 2 * n <= length es <= length linked_edges + 2 * n + 3.
Proof.
  induction fuel as [|fuel IH]; intros b vs ske linked n es; [discriminate|].
  rewrite cycle_walk_S. cbv zeta.
  destruct vs as [|v1 [|v2 [|v3 vs]]]; try discriminate.
  destruct (bool_decide _ || bool_decide _) eqn:Hstuck.
  { intros [= <- <-]. repeat split; auto; lia. }
  destruct (find_closest_pair_edges vec_length b _ _) as [[e1 e2]|e'] eqn:Hpair;
    [|discriminate].
  apply find_closest_pair_edges_elem in Hpair as [He1 He2].
  apply get_linked_edges_elem, set_diff_elem in He1 as [He1 _].
  apply get_linked_edges_elem, set_diff_elem in He2 as [He2 _].
  assert (forall e, e ∈ linked ++ [e1; e2] -> e ∈ linked \/ e ∈ ske) as Hpairs.
  { intros e He. apply elem_of_app in He as [He | He]; [now left|]. right.
    apply elem_of_cons in He as [-> | He]; [exact He1|].
    apply list_elem_of_singleton in He as ->. exact He2. }
  destruct (bool_decide (length _ = 1)).
  { intros [= <- <-]. split; [|split].
    - intros e He. apply elem_of_app. now left.
    - intros e He. destruct (Hpairs e He); auto.
    - rewrite length_app. simpl. lia. }
  destruct (edges_get b _) as [[edge|]|e'] eqn:Hget; try discriminate.
  - intros [= <- <-]. apply edges_get_Ok in Hget as (o1 & o2 & _ & Hedge).
    split; [|split].
    + intros e He. do 2 apply list_elem_of_further. apply elem_of_app. now left.
    + intros e He. simpl in He.
      apply elem_of_cons in He as [-> | He]; [auto|].
      apply elem_of_cons in He as [-> | He]; [auto|].
      apply elem_of_app in He as [He | He]; [now left|].
      apply list_elem_of_singleton in He as ->. right. right. eauto.
    + simpl. rewrite !length_app. simpl. lia.
  - destruct (cycle_walk vec_length fuel b _ ske (linked ++ [e1; e2]))
      as [[n' r']|] eqn:Hrec; [|discriminate].
    simpl. intros [= <- ->]. apply IH in Hrec as (Hkeep & Hfrom & Hlen).
    split; [|split].
    + intros e He. apply Hkeep, elem_of_app. now left.
    + intros e He. destruct (Hfrom e He) as [Hin | Hother]; [|auto].
      destruct (Hpairs e Hin); auto.
    + rewrite length_app in Hlen. simpl in Hlen. lia.
Qed.

(** The shape of the chain the walk returns. *)
Lemma cycle_walk_shape (fuel : nat) :
  forall (b : BMesh) (vs : list BMVert) (skeleton_edges linked_edges : list BMEdge)
         (n : nat) (es : list BMEdge),
  cycle_walk vec_length fuel b vs skeleton_edges linked_edges = Some (n, Ok es) ->
  exists walked,
    Forall (fun e => e ∈ skeleton_edges /\ e ∉ linked_edges) walked /\
    (es = linked_edges ++ walked \/
     closed_by_edge b skeleton_edges es (linked_edges ++ walked)).
Proof.
  induction fuel as [|fuel IH]; intros b vs ske linked n es; [discriminate|].
  rewrite cycle_walk_S. cbv zeta.
  destruct vs as [|v1 [|v2 [|v3 vs]]]; try discriminate.
  destruct (bool_decide _ || bool_decide _) eqn:Hstuck.
  { intros [= <- <-]. exists []. split; [constructor|]. left. now rewrite app_nil_r. }
  destruct (find_closest_pair_edges vec_length b _ _) as [[e1 e2]|e'] eqn:Hpair;
    [|discriminate].
  apply find_closest_pair_edges_elem in Hpair as [He1 He2].
  apply get_linked_edges_elem, set_diff_elem in He1 as [He1 Hn1].
  apply get_linked_edges_elem, set_diff_elem in He2 as [He2 Hn2].
  set (vs' := Py.set_diff (flat_map (edge_verts b) [e1; e2]) [v1; v2]).
  destruct (bool_decide (length vs' = 1)).
  { intros [= <- <-]. exists [e1; e2]. split; [|now left].
    constructor; [now split|]. constructor; [now split | constructor]. }
  destruct (edges_get b vs') as [[edge|]|e'] eqn:Hget; try discriminate.
  - intros [= <- <-]. apply edges_get_Ok in Hget as (o1 & o2 & Hvs' & Hedge).
    exists []. split; [constructor|]. right. rewrite app_nil_r.
    exists e1, e2, edge, o1, o2.
    pose proof (set_diff_NoDup (flat_map (edge_verts b) [e1; e2]) [v1; v2]) as Hnd.
    fold vs' in Hnd. rewrite Hvs' in Hnd.
    assert (forall o, o ∈ vs' -> o ∈ flat_map (edge_verts b) [e1; e2]) as Hends.
    { intros o Ho. now apply set_diff_elem in Ho as [Ho _]. }
    rewrite Hvs' in Hends. split_and!; try done.
    + apply NoDup_cons in Hnd as [Hnot _]. intros ->. apply Hnot, list_elem_of_here.
    + apply Hends, list_elem_of_here.
    + apply Hends, list_elem_of_further, list_elem_of_here.
  - destruct (cycle_walk vec_length fuel b vs' ske (linked ++ [e1; e2]))
      as [[n' r']|] eqn:Hrec; [|discriminate].
    simpl. intros Heq. injection Heq as <- ->.
    apply IH in Hrec as (walked & Hall & Hshape).
    exists ([e1; e2] ++ walked). split.
    + constructor; [now split|]. constructor; [now split|].
      eapply Forall_impl; [exact Hall|]. intros e [He Hnot]. split; [exact He|].
      intros Hin. apply Hnot, elem_of_app. now left.
    + replace (linked ++ [e1; e2] ++ walked) with ((linked ++ [e1; e2]) ++ walked)
        by now rewrite <- app_assoc.
      exact Hshape.
Qed.

End WalkOutcomes.

(** X11.  Started from two vertices, [cycle_edges_form_polygon] returns or
    raises the [TypeError] of [bm.edges.get]; the guard on the two fronts
    keeps [find_closest_pair_edges] from its [IndexError], and the fronts
    stay two vertices, so that unpacking them never fails. *)
Theorem closure_walk_raises_only_TypeError
    (vec_length : Vector.t -> Q) (b : BMesh) (v1 v2 : BMVert)
    (skeleton_edges linked_edges : list BMEdge) :
  exists r,
    cycle_edges_form_polygon vec_length b [v1; v2] skeleton_edges linked_edges = Some r /\
    match r with
    | Ok _ => True
    | Raise e => e = TypeError
    end.
Proof.
  destruct (cycle_walk_terminates_below vec_length
              (remaining skeleton_edges linked_edges) b [v1; v2] skeleton_edges linked_edges)
    as (n & r & _ & Hrun); [lia|].
  specialize (Hrun (S (remaining skeleton_edges linked_edges)) (Nat.lt_succ_diag_r _)).
  exists r. unfold cycle_edges_form_polygon. rewrite Hrun. split; [reflexivity|].
  destruct r as [es|e]; [exact Logic.I|].
  now apply cycle_walk_raises_TypeError in Hrun.
Qed.

(** X12.  The chain [cycle_edges_form_polygon] returns is built around the
    edges it was given.  Either it is [linked_edges] followed by the
    skeleton edges the walk took, none of which was in [linked_edges]; or
    it is that, with the last pair of skeleton edges taken put in front and
    one edge of the mesh put behind, the edge between two different ends of
    that pair. *)
Theorem closure_walk_chain_shape
    (vec_length : Vector.t -> Q) (b : BMesh) (vs : list BMVert)
    (skeleton_edges linked_edges : list BMEdge) :
  match cycle_edges_form_polygon vec_length b vs skeleton_edges linked_edges with
  | Some (Ok es) =>
      exists walked,
        Forall (fun e => e ∈ skeleton_edges /\ e ∉ linked_edges) walked /\
        (es = linked_edges ++ walked \/ closed_by_edge b skeleton_edges es (linked_edges ++ walked))
  | _ => True
  end.
Proof.
  unfold cycle_edges_form_polygon.
  destruct (cycle_walk vec_length _ b vs skeleton_edges linked_edges)
    as [[n [es|e]]|] eqn:Hrun; simpl; try exact Logic.I.
  now apply cycle_walk_shape in Hrun.
Qed.

(** ** Outcomes of closing a face *)

(** X13.  For every boundary edge the body of [create_skeleton_faces] ends:
    it raises nothing but the [TypeError] of [bm.edges.get], and the
    geometry it hands to [contextual_create] holds the boundary edge and
    every skeleton edge linked to its ends. *)
Theorem close_face_outcomes
    (vec_length : Vector.t -> Q) (b : BMesh) (skeleton_edges : list BMEdge)
    (ed : BMEdge) :
  exists r,
    close_face vec_length b skeleton_edges ed = Some r /\
    match r with
    | Ok c =>
        ed ∈ geometry c /\
        forall e, e ∈ get_linked_edges b (edge_verts b ed) skeleton_edges -> e ∈ geometry c
    | Raise e => e = TypeError
    end.
Proof.
  unfold close_face.
  set (linked := get_linked_edges b (edge_verts b ed) skeleton_edges).
  set (opposite := opposite_verts b skeleton_edges ed).
  destruct (bool_decide (length opposite = 1)).
  { eexists. split; [reflexivity|]. simpl. split.
    - apply elem_of_app. right. apply list_elem_of_here.
    - intros e He. apply elem_of_app. now left. }
  destruct (edges_get b opposite) as [[edge|]|e] eqn:Hget.
  - eexists. split; [reflexivity|]. simpl. split.
    + apply elem_of_app. right. apply list_elem_of_here.
    + intros e He. apply elem_of_app. now left.
  - apply edges_get_Ok in Hget as (o1 & o2 & -> & _).
    destruct (cycle_walk_terminates_below vec_length
                (remaining skeleton_edges linked) b [o1; o2] skeleton_edges linked)
      as (n & r & _ & Hrun); [lia|].
    specialize (Hrun (S (remaining skeleton_edges linked)) (Nat.lt_succ_diag_r _)).
    unfold cycle_edges_form_polygon. rewrite Hrun. simpl.
    eexists. split; [reflexivity|].
    destruct r as [es|e]; simpl.
    + apply cycle_walk_chain in Hrun as (Hkeep & _). split.
      * apply list_elem_of_here.
      * intros e He. apply list_elem_of_further. now apply Hkeep.
    + now apply cycle_walk_raises_TypeError in Hrun.
  - eexists. split; [reflexivity|]. now apply edges_get_Raise in Hget.
Qed.

(** X14.  A boundary edge with no opposite vertex, as when no skeleton edge
    reaches its ends, or with more than two, makes the body of
    [create_skeleton_faces] raise: [bm.edges.get] is handed a sequence that
    is not a pair. *)
Theorem close_face_needs_one_or_two_opposite_verts
    (vec_length : Vector.t -> Q) (b : BMesh) (skeleton_edges : list BMEdge)
    (ed : BMEdge) :
  length (opposite_verts b skeleton_edges ed) <> 1 ->
  length (opposite_verts b skeleton_edges ed) <> 2 ->
  close_face vec_length b skeleton_edges ed = Some (Raise TypeError).
Proof.
  intros H1 H2. unfold close_face.
  rewrite bool_decide_eq_false_2 by exact H1.
  destruct (opposite_verts b skeleton_edges ed) as [|o1 [|o2 [|o3 rest]]];
    simpl in *; try reflexivity; lia.
Qed.

Lemma close_face_needs_one_or_two_opposite_verts_witness :
  close_face sq_length lone_edge_mesh [] 0%nat = Some (Raise TypeError).
Proof.
  apply (close_face_needs_one_or_two_opposite_verts sq_length lone_edge_mesh [] 0%nat);
    discriminate.
Defined.

(** ** The slope correction and the rest of the mesh *)

(** X15.  The slope correction moves nothing but the vertices of the lowest
    vertical edges: the mesh keeps its edges, its faces and the number of
    its vertices, and a vertex that is on no vertical edge of least median
    stays where it was. *)
Theorem slope_correction_leaves_the_rest
    (filter_vertical_edges : BMesh -> list BMEdge -> Vector.t -> list BMEdge)
    (b b' : BMesh) (side_faces : list BMFace) (prop_outset : Q) :
  slope_correction filter_vertical_edges b side_faces prop_outset = Ok b' ->
  edges b' = edges b /\ faces b' = faces b /\
  length (verts b') = length (verts b) /\
  forall v,
    (forall e, e ∈ side_v_edges filter_vertical_edges b side_faces ->
       v ∈ edge_verts b e ->
       exists e', e' ∈ side_v_edges filter_vertical_edges b side_faces /\
                  (median_z b e' < median_z b e)%Q) ->
    verts b' !! v = verts b !! v.
Proof.
  unfold slope_correction. intros Hb'.
  apply bind_Ok in Hb' as (vs & Hvs & [= <-]).
  apply min_z_verts_elem in Hvs as [Hnd Hvs].
  split; [reflexivity|]. split; [reflexivity|]. split.
  - unfold translate. simpl. clear Hnd Hvs.
    induction vs as [|u vs IH]; simpl; [reflexivity|]. now rewrite length_alter.
  - intros v Hv. rewrite (translate_lookup _ _ _ _ Hnd).
    destruct (decide (v ∈ vs)) as [Hin|_]; [|reflexivity].
    apply Hvs in Hin as (e & He & Hve & Hlow).
    destruct (Hv e He Hve) as (e' & He' & Hlt).
    specialize (Hlow e' He'). lra.
Qed.

Lemma slope_correction_leaves_the_rest_witness :
  edges (translate eave_mesh [0; 1]%nat (Vec 0 0 (- (3 # 10) / 2))) = edges eave_mesh /\
  faces (translate eave_mesh [0; 1]%nat (Vec 0 0 (- (3 # 10) / 2))) = faces eave_mesh /\
  length (verts (translate eave_mesh [0; 1]%nat (Vec 0 0 (- (3 # 10) / 2))))
    = length (verts eave_mesh) /\
  forall v,
    (forall e, e ∈ side_v_edges upright_edges eave_mesh [0%nat] ->
       v ∈ edge_verts eave_mesh e ->
       exists e', e' ∈ side_v_edges upright_edges eave_mesh [0%nat] /\
                  (median_z eave_mesh e' < median_z eave_mesh e)%Q) ->
    verts (translate eave_mesh [0; 1]%nat (Vec 0 0 (- (3 # 10) / 2))) !! v
      = verts eave_mesh !! v.
Proof.
  apply (slope_correction_leaves_the_rest upright_edges eave_mesh _ [0%nat] (3 # 10)).
  reflexivity.
Defined.

(** X16.  Without a vertical edge on the side faces, as when there is no
    side face, the slope correction raises the [ValueError] of [min] on an
    empty list. *)
Theorem slope_correction_without_vertical_edges
    (filter_vertical_edges : BMesh -> list BMEdge -> Vector.t -> list BMEdge)
    (b : BMesh) (side_faces : list BMFace) (prop_outset : Q) :
  side_v_edges filter_vertical_edges b side_faces = [] ->
  slope_correction filter_vertical_edges b side_faces prop_outset = Raise ValueError.
Proof.
  intros Hnone. unfold slope_correction, min_z_verts. now rewrite Hnone.
Qed.

Lemma slope_correction_without_vertical_edges_witness :
  slope_correction upright_edges eave_mesh [] (3 # 10) = Raise ValueError.
Proof.
  apply (slope_correction_without_vertical_edges upright_edges eave_mesh [] (3 # 10)).
  reflexivity.
Defined.

(** ** Ordering the vertices of the footprint *)

Lemma tuple_lt_true (p q : Q * Q) :
  tuple_lt p q = true <-> (p.1 < q.1)%Q \/ (p.1 == q.1 /\ (p.2 < q.2)%Q).
Proof.
  unfold tuple_lt. destruct (Qeq_bool p.1 q.1) eqn:Heq.
  - apply Qeq_bool_iff in Heq. rewrite Qlt_bool_iff. split; [auto|].
    intros [H | [_ H]]; [lra | exact H].
  - assert (~ p.1 == q.1) as Hne.
    { intros H. apply Qeq_bool_iff in H. congruence. }
    rewrite Qlt_bool_iff. split; [auto|]. intros [H | [H _]]; [exact H | contradiction].
Qed.

Lemma tuple_lt_false (p q : Q * Q) :
  tuple_lt p q = false <-> (q.1 < p.1)%Q \/ (p.1 == q.1 /\ (q.2 <= p.2)%Q).
Proof.
  rewrite <- not_true_iff_false, tuple_lt_true. split.
  - intros Hnot. destruct (Q_dec p.1 q.1) as [[Hlt | Hgt] | Heq].
    + exfalso. auto.
    + now left.
    + right. split; [exact Heq|]. apply Qnot_lt_le. intros Hlt. apply Hnot. auto.
  - intros [Hgt | [Heq Hle]] [Hlt | [Heq' Hlt]]; lra.
Qed.

Lemma max_from_tuple_elem {A} (key : A -> Q * Q) (l : list A) (best : A) :
  max_from_tuple key best l ∈ best :: l.
Proof.
  revert best. induction l as [|a l IH]; intros best; simpl.
  - apply list_elem_of_here.
  - specialize (IH (if tuple_lt (key best) (key a) then a else best)).
    destruct (tuple_lt (key best) (key a)).
    + now apply list_elem_of_further.
    + apply elem_of_cons in IH as [-> | IH]; [apply list_elem_of_here|].
      now do 2 apply list_elem_of_further.
Qed.

Lemma max_from_tuple_max {A} (key : A -> Q * Q) (l : list A) (best a : A) :
  a ∈ best :: l -> tuple_lt (key (max_from_tuple key best l)) (key a) = false.
Proof.
  revert best a. induction l as [|c l IH]; intros best a Ha; simpl.
  - apply list_elem_of_singleton in Ha as ->. apply tuple_lt_false. right.
    split; [reflexivity | apply Qle_refl].
  - destruct (tuple_lt (key best) (key c)) eqn:Hlt.
    + apply elem_of_cons in Ha as [-> | Ha]; [|now apply IH].
      pose proof (IH c c (list_elem_of_here _ _)) as Hc.
      apply tuple_lt_true in Hlt. apply tuple_lt_false in Hc. apply tuple_lt_false.
      destruct Hlt as [? | [? ?]]; destruct Hc as [? | [? ?]];
        [left | left | left | right; split]; lra.
    + apply elem_of_cons in Ha as [-> | Ha]; [apply IH, list_elem_of_here|].
      apply elem_of_cons in Ha as [-> | Ha]; [|apply IH; now apply list_elem_of_further].
      pose proof (IH best best (list_elem_of_here _ _)) as Hb.
      apply tuple_lt_false in Hlt, Hb. apply tuple_lt_false.
      destruct Hlt as [? | [? ?]]; destruct Hb as [? | [? ?]];
        [left | left | left | right; split]; lra.
Qed.

Lemma walk_loops_S (loops : list BMVert) (k cur : nat) :
  walk_loops loops (S k) cur =
    (loops !!! cur) :: walk_loops loops k (link_loop_prev (length loops) cur).
Proof. reflexivity. Qed.

(** Walking back from the loop [cur] reaches the first loop and goes on from
    the last. *)
Lemma walk_loops_down (loops : list BMVert) (cur m : nat) :
  cur < length loops ->
  walk_loops loops (S cur + m) cur =
    reverse (take (S cur) loops) ++ walk_loops loops m (length loops - 1).
Proof.
  induction cur as [|cur IH]; intros Hcur.
  - simpl. destruct loops as [|v loops]; [simpl in Hcur; lia|]. reflexivity.
  - change (S (S cur) + m) with (S (S cur + m)).
    rewrite walk_loops_S. cbn [link_loop_prev]. rewrite IH by lia.
    rewrite (take_S_r loops (S cur) (loops !!! S cur))
      by (apply list_lookup_lookup_total_lt; lia).
    now rewrite reverse_snoc.
Qed.

Lemma walk_loops_take (loops : list BMVert) (m : nat) :
  forall cur, cur < length loops -> m <= S cur ->
  walk_loops loops m cur = take m (reverse (take (S cur) loops)).
Proof.
  induction m as [|m IH]; intros cur Hcur Hm; [reflexivity|].
  rewrite walk_loops_S.
  rewrite (take_S_r loops cur (loops !!! cur))
    by (apply list_lookup_lookup_total_lt; lia).
  rewrite reverse_snoc. cbn [take]. f_equal.
  destruct cur as [|cur]; cbn [link_loop_prev].
  - assert (m = 0) as -> by lia. reflexivity.
  - apply IH; lia.
Qed.

Lemma walk_loops_all (loops : list BMVert) (i0 : nat) :
  i0 < length loops ->
  walk_loops loops (length loops) i0 =
    reverse (take (S i0) loops) ++ reverse (drop (S i0) loops).
Proof.
  intros Hi0.
  replace (length loops) with (S i0 + (length loops - S i0)) at 1 by lia.
  rewrite walk_loops_down by exact Hi0. f_equal.
  rewrite walk_loops_take by lia.
  replace (S (length loops - 1)) with (length loops) by lia.
  rewrite (take_ge loops (length loops)) by lia.
  rewrite take_reverse. do 2 f_equal. lia.
Qed.

(** X17.  [sort_verts_by_loops] raises [ValueError] on a face without
    loops.  Otherwise it starts from a loop whose [(x, y)] no loop exceeds
    and walks the loops backwards, once around: the vertices up to the
    start in reverse, then the rest in reverse.  It answers every vertex of
    the face, as often as the face has it. *)
Theorem sort_verts_by_loops_spec (b : BMesh) (loops : list BMVert) :
  match sort_verts_by_loops b loops with
  | Raise e => loops = [] /\ e = ValueError
  | Ok vs =>
      vs ≡ₚ loops /\
      exists i0, i0 < length loops /\
        vs = reverse (take (S i0) loops) ++ reverse (drop (S i0) loops) /\
        forall v, v ∈ loops -> tuple_lt (xy b (loops !!! i0)) (xy b v) = false
  end.
Proof.
  unfold sort_verts_by_loops.
  destruct (enumerate loops) as [|l ls] eqn:Hen.
  { split; [|reflexivity]. apply (f_equal length) in Hen.
    unfold enumerate in Hen. rewrite length_imap in Hen. now destruct loops. }
  set (start := max_from_tuple (fun l => xy b l.2) l ls).
  pose proof (max_from_tuple_elem (fun l : nat * BMVert => xy b l.2) ls l) as Hin.
  fold start in Hin. rewrite <- Hen in Hin. destruct start as [i0 v0] eqn:Hstart.
  apply enumerate_elem in Hin. simpl.
  assert (i0 < length loops) as Hi0 by (now apply lookup_lt_Some in Hin).
  rewrite walk_loops_all by exact Hi0. split.
  - rewrite !reverse_Permutation. now rewrite take_drop.
  - exists i0. split; [exact Hi0|]. split; [reflexivity|].
    intros v Hv. apply list_elem_of_lookup in Hv as [j Hj].
    assert ((j, v) ∈ l :: ls) as Hjv by (rewrite <- Hen; now apply enumerate_elem).
    apply (max_from_tuple_max (fun l : nat * BMVert => xy b l.2)) in Hjv.
    fold start in Hjv. rewrite Hstart in Hjv. simpl in Hjv.
    now rewrite (list_lookup_total_correct _ _ _ Hin).
Qed.

(** On the rectangle the walk starts at the corner [(4, 2)] and goes back
    through the corners before it. *)
Example sort_verts_by_loops_rectangle :
  sort_verts_by_loops rectangle rectangle_loops = Ok [2; 1; 0; 3]%nat.
Proof. reflexivity. Qed.

(** ** The side faces of an open gable *)

Lemma link_faces_elem (b : BMesh) (e : BMEdge) (f : BMFace) :
  f ∈ link_faces b e <-> e ∈ face_edges b f.
Proof.
  unfold link_faces, face_edges. rewrite list_elem_of_fmap. split.
  - intros ([i fd] & -> & Hin). apply list_elem_of_filter in Hin as [He Hin].
    apply enumerate_elem in Hin. simpl in *.
    change (default [] (f_edges <$> faces b !! i)) with
      (default [] (f_edges <$> (faces b !! i))).
    destruct (faces b !! i) as [fd'|]; [|discriminate].
    injection Hin as ->. exact He.
  - destruct (faces b !! f) as [fd|] eqn:Hf; simpl; [|intros H; inversion H].
    intros He. exists (f, fd). split; [reflexivity|].
    apply list_elem_of_filter. split; [exact He | now apply enumerate_elem].
Qed.

Lemma link_faces_NoDup (b : BMesh) (e : BMEdge) : NoDup (link_faces b e).
Proof.
  unfold link_faces.
  apply (sublist_NoDup _ (fst <$> enumerate (faces b))).
  - unfold enumerate. rewrite fmap_imap.
    rewrite (imap_ext _ (fun j _ => j)) by done.
    rewrite (imap_seq_0 (faces b) (fun j => j)), list_fmap_id. apply NoDup_seq.
  - apply fmap_sublist, sublist_filter.
Qed.

Lemma two_faces (lf : list BMFace) (f g : BMFace) :
  NoDup lf -> f <> g ->
  (length lf = 2 /\ f ∈ lf /\ g ∈ lf) <-> (forall h, h ∈ lf <-> h = f \/ h = g).
Proof.
  intros Hnd Hne. split.
  - intros (Hlen & Hf & Hg) h.
    destruct lf as [|x [|y [|z lf]]]; simpl in Hlen; try lia.
    apply NoDup_cons in Hnd as [Hxy _].
    rewrite !elem_of_cons in *. rewrite elem_of_nil in *.
    split; [|intros [-> | ->]; tauto].
    intros [-> | [-> | []]]; destruct Hf as [-> | [-> | []]];
      destruct Hg as [-> | [-> | []]]; tauto.
  - intros Hall.
    assert (lf ≡ₚ [f; g]) as Hperm.
    { apply NoDup_Permutation; [exact Hnd | |].
      - apply NoDup_cons. split; [|apply NoDup_singleton].
        now intros ->%list_elem_of_singleton.
      - intros h. rewrite Hall, !elem_of_cons, elem_of_nil. tauto. }
    split; [now rewrite Hperm|]. split; apply Hall; auto.
Qed.

(** X18.  A face is taken for a side face exactly when it is not one of the
    new faces and an edge of a new face borders two faces in all, that new
    face and it. *)
Theorem find_side_faces_spec (b : BMesh) (new_faces : list BMFace) (f : BMFace) :
  f ∈ find_side_faces b new_faces <->
  (f ∉ new_faces) /\
  exists nf e, nf ∈ new_faces /\ e ∈ face_edges b nf /\
    forall g, e ∈ face_edges b g <-> g = nf \/ g = f.
Proof.
  unfold find_side_faces. rewrite flat_map_elem. split.
  - intros (e & He & Hf).
    apply flat_map_elem in He as (nf & Hnf & He).
    destruct (bool_decide (length (link_faces b e) = 2)) eqn:Hlen; [|inversion Hf].
    destruct (bool_decide (length (filter _ (link_faces b e)) = 1)) eqn:Hcnt;
      [|inversion Hf].
    simpl in Hf. apply bool_decide_eq_true in Hlen.
    unfold Py.set_diff in Hf.
    rewrite elem_of_remove_dups, list_elem_of_difference in Hf. destruct Hf as [Hf Hnot].
    split; [exact Hnot|]. exists nf, e. split; [exact Hnf|]. split; [exact He|].
    intros g. rewrite <- link_faces_elem.
    apply two_faces; [apply link_faces_NoDup | congruence |].
    split; [exact Hlen|]. split; [now apply link_faces_elem | exact Hf].
  - intros (Hnot & nf & e & Hnf & He & Hall).
    assert (nf <> f) as Hne by congruence.
    assert (forall g, g ∈ link_faces b e <-> g = nf \/ g = f) as Hall'.
    { intros g. now rewrite link_faces_elem. }
    pose proof (link_faces_NoDup b e) as Hnd.
    apply (two_faces _ nf f Hnd Hne) in Hall' as Htwo. destruct Htwo as (Hlen & _ & Hf).
    exists e. split; [apply flat_map_elem; eauto|].
    rewrite (bool_decide_eq_true_2 _ Hlen).
    assert (link_faces b e ≡ₚ [nf; f]) as Hperm.
    { apply NoDup_Permutation; [exact Hnd | |].
      - apply NoDup_cons. split; [|apply NoDup_singleton].
        now intros ->%list_elem_of_singleton.
      - intros h. rewrite Hall', !elem_of_cons, elem_of_nil. tauto. }
    assert (length (filter (fun f => f ∈ new_faces) (link_faces b e)) = 1) as Hcnt.
    { rewrite Hperm. rewrite filter_cons_True by exact Hnf.
      rewrite filter_cons_False by exact Hnot. reflexivity. }
    rewrite (bool_decide_eq_true_2 _ Hcnt). simpl.
    unfold Py.set_diff. rewrite elem_of_remove_dups, list_elem_of_difference. now split.
Qed.

(** Of the two slabs of [slab_mesh] the wall beside the edge 0 is the one
    side face: the edge between the slabs has a new face on both sides and
    the edge 2 has a face on one side only. *)
Example find_side_faces_of_slabs : find_side_faces slab_mesh [0; 1]%nat = [2%nat].
Proof. vm_compute. reflexivity. Qed.

(** ** The edges dissolved after the outset *)

Section UpperEdgesFacts.

Variable filter_vertical_edges : BMesh -> list BMEdge -> Vector.t -> list BMEdge.

Lemma max_edge_Ok (b : BMesh) (f : BMFace) (e : BMEdge) :
  max_edge filter_vertical_edges b f = Ok e ->
  highest_slanted filter_vertical_edges b f e.
Proof.
  unfold max_edge, max_by.
  destruct (Py.set_diff _ _) as [|x xs] eqn:Hes; [discriminate|].
  intros [= <-].
  pose proof (max_from_elem (median_z b) xs x) as Hin.
  rewrite <- Hes in Hin. apply set_diff_elem in Hin as [Hin Hnot].
  split; [exact Hin|]. split; [exact Hnot|].
  intros e' He' Hnot'. apply (max_from_ge (median_z b)).
  rewrite <- Hes. now apply set_diff_elem.
Qed.

Lemma max_edge_Raise (b : BMesh) (f : BMFace) (x : exn) :
  max_edge filter_vertical_edges b f = Raise x ->
  x = ValueError /\
  forall e, e ∈ face_edges b f ->
    e ∈ filter_vertical_edges b (face_edges b f) (face_normal b f).
Proof.
  unfold max_edge, max_by.
  destruct (Py.set_diff _ _) as [|y ys] eqn:Hes; [|discriminate].
  intros [= <-]. split; [reflexivity|].
  intros e He.
  destruct (decide (e ∈ filter_vertical_edges b (face_edges b f) (face_normal b f)))
    as [Hin | Hnot]; [exact Hin|].
  assert (e ∈ Py.set_diff (face_edges b f)
                (filter_vertical_edges b (face_edges b f) (face_normal b f))) as Hin
    by now apply set_diff_elem.
  rewrite Hes in Hin. inversion Hin.
Qed.

Lemma upper_edges_from (b : BMesh) (side_faces : list BMFace) (acc : list BMEdge) :
  match for_each (fun dissolve_edges f =>
                    e ← max_edge filter_vertical_edges b f; Ok (dissolve_edges ++ [e]))
                 side_faces acc with
  | Ok es =>
      exists es', es = acc ++ es' /\
                  Forall2 (highest_slanted filter_vertical_edges b) side_faces es'
  | Raise x =>
      x = ValueError /\
      exists f, f ∈ side_faces /\
        forall e, e ∈ face_edges b f ->
          e ∈ filter_vertical_edges b (face_edges b f) (face_normal b f)
  end.
Proof.
  revert acc. induction side_faces as [|f fs IH]; intros acc; simpl.
  - exists []. split; [now rewrite app_nil_r | constructor].
  - destruct (max_edge filter_vertical_edges b f) as [e|x] eqn:Hf; simpl.
    + specialize (IH (acc ++ [e])).
      destruct (for_each _ fs (acc ++ [e])) as [es|x].
      * destruct IH as (es' & -> & Hall). exists (e :: es').
        split; [now rewrite <- app_assoc|]. constructor; [now apply max_edge_Ok | exact Hall].
      * destruct IH as (-> & f' & Hf' & Hall). split; [reflexivity|].
        exists f'. split; [now apply list_elem_of_further | exact Hall].
    + apply max_edge_Raise in Hf as [-> Hall]. split; [reflexivity|].
      exists f. split; [apply list_elem_of_here | exact Hall].
Qed.

End UpperEdgesFacts.

(** X19.  The edges marked for the dissolve are, face by face, the highest
    of the edges of each side face that are not vertical.  A side face all
    of whose edges are vertical makes [max] raise [ValueError]. *)
Theorem upper_edges_spec
    (filter_vertical_edges : BMesh -> list BMEdge -> Vector.t -> list BMEdge)
    (b : BMesh) (side_faces : list BMFace) :
  match upper_edges filter_vertical_edges b side_faces with
  | Ok es => Forall2 (highest_slanted filter_vertical_edges b) side_faces es
  | Raise x =>
      x = ValueError /\
      exists f, f ∈ side_faces /\
        forall e, e ∈ face_edges b f ->
          e ∈ filter_vertical_edges b (face_edges b f) (face_normal b f)
  end.
Proof.
  unfold upper_edges.
  pose proof (upper_edges_from filter_vertical_edges b side_faces []) as H.
  destruct (for_each _ side_faces []) as [es|x]; [|exact H].
  now destruct H as (es' & -> & Hall).
Qed.

(** On the side face of [eave_mesh] the upper of the two slanted edges is
    marked. *)
Example upper_edge_of_eave : upper_edges upright_edges eave_mesh [0%nat] = Ok [3%nat].
Proof. vm_compute. reflexivity. Qed.

(** ** The states the closure walk reaches *)

Section WalkReaches.

Variable vec_length : Vector.t -> Q.

(** [next_call] is the recursive call: a call that has one hands on what
    that call gives, counted once more. *)
Lemma next_call_Some (fuel : nat) (b : BMesh) (skeleton_edges : list BMEdge)
    (vs vs' : list BMVert) (linked_edges linked' : list BMEdge) :
  next_call vec_length b skeleton_edges vs linked_edges = Some (vs', linked') ->
  cycle_walk vec_length (S fuel) b vs skeleton_edges linked_edges =
    '(n, r) ← cycle_walk vec_length fuel b vs' skeleton_edges linked'; Some (S n, r).
Proof.
  rewrite cycle_walk_S. unfold next_call. cbv zeta.
  destruct vs as [|v1 [|v2 [|v3 vs]]]; try discriminate.
  destruct (bool_decide _ || bool_decide _); [discriminate|].
  destruct (find_closest_pair_edges vec_length b _ _) as [[e1 e2]|e]; [|discriminate].
  destruct (bool_decide (length _ = 1)); [discriminate|].
  destruct (edges_get b _) as [[edge|]|e]; try discriminate.
  now intros [= <- <-].
Qed.

(** A call that has none returns or raises at once. *)
Lemma next_call_None (b : BMesh) (skeleton_edges : list BMEdge)
    (vs : list BMVert) (linked_edges : list BMEdge) :
  next_call vec_length b skeleton_edges vs linked_edges = None ->
  exists r, forall fuel,
    cycle_walk vec_length (S fuel) b vs skeleton_edges linked_edges = Some (O, r).
Proof.
  unfold next_call. intros Hnone.
  assert (forall fuel,
            cycle_walk vec_length (S fuel) b vs skeleton_edges linked_edges =
            cycle_walk vec_length 1 b vs skeleton_edges linked_edges) as Hsame.
  { intros fuel. rewrite !cycle_walk_S. cbv zeta.
    destruct vs as [|v1 [|v2 [|v3 vs]]]; try reflexivity.
    destruct (bool_decide _ || bool_decide _); [reflexivity|].
    destruct (find_closest_pair_edges vec_length b _ _) as [[e1 e2]|e]; [|reflexivity].
    destruct (bool_decide (length _ = 1)); [reflexivity|].
    destruct (edges_get b _) as [[edge|]|e];
      [reflexivity | discriminate Hnone | reflexivity]. }
  assert (exists r, cycle_walk vec_length 1 b vs skeleton_edges linked_edges = Some (O, r))
    as [r Hr].
  { rewrite cycle_walk_S. cbv zeta.
    destruct vs as [|v1 [|v2 [|v3 vs]]]; try (now eexists).
    destruct (bool_decide _ || bool_decide _); [now eexists|].
    destruct (find_closest_pair_edges vec_length b _ _) as [[e1 e2]|e]; [|now eexists].
    destruct (bool_decide (length _ = 1)); [now eexists|].
    destruct (edges_get b _) as [[edge|]|e];
      [now eexists | discriminate Hnone | now eexists]. }
  exists r. intros fuel. now rewrite Hsame.
Qed.

(** What the call reached after [k] recursive calls gives is what the first
    call gives, [k] calls later. *)
Lemma call_after_result (b : BMesh) (skeleton_edges : list BMEdge) (k : nat) :
  forall (vs0 vs : list BMVert) (linked0 linked : list BMEdge)
         (fuel n : nat) (r : result (list BMEdge)),
  call_after vec_length b skeleton_edges k vs0 linked0 = Some (vs, linked) ->
  cycle_walk vec_length fuel b vs skeleton_edges linked = Some (n, r) ->
  cycle_walk vec_length (k + fuel) b vs0 skeleton_edges linked0 = Some (k + n, r).
Proof.
  induction k as [|k IH]; intros vs0 vs linked0 linked fuel n r Hreach Hrun;
    simpl in Hreach.
  - now injection Hreach as -> ->.
  - destruct (next_call vec_length b skeleton_edges vs0 linked0) as [[vs1 linked1]|] eqn:Hnext;
      [|discriminate].
    simpl in Hreach. change (S k + fuel) with (S (k + fuel)).
    rewrite (next_call_Some _ _ _ _ _ _ _ Hnext).
    now rewrite (IH _ _ _ _ _ _ _ Hreach Hrun).
Qed.

End WalkReaches.

(** C7.  Whenever the walk, after any number of recursive calls, is in a
    state where one of its two fronts has no unused skeleton edge, the walk
    as a whole returns the edges accumulated in that state, having made that
    many recursive calls, and does not raise. *)
Theorem walk_returns_chain_of_stuck_state
    (vec_length : Vector.t -> Q) (b : BMesh) (skeleton_edges : list BMEdge)
    (vs0 : list BMVert) (linked0 : list BMEdge) (k : nat)
    (v1 v2 : BMVert) (linked_edges : list BMEdge) :
  call_after vec_length b skeleton_edges k vs0 linked0 = Some ([v1; v2], linked_edges) ->
  get_linked_edges b [v1] (Py.set_diff skeleton_edges linked_edges) = [] \/
  get_linked_edges b [v2] (Py.set_diff skeleton_edges linked_edges) = [] ->
  cycle_edges_form_polygon vec_length b vs0 skeleton_edges linked0 = Some (Ok linked_edges) /\
  forall fuel, k < fuel ->
    cycle_walk vec_length fuel b vs0 skeleton_edges linked0 = Some (k, Ok linked_edges).
Proof.
  intros Hreach Hstuck.
  assert (forall fuel, k < fuel ->
            cycle_walk vec_length fuel b vs0 skeleton_edges linked0
              = Some (k, Ok linked_edges)) as Hwalk.
  { intros fuel Hfuel.
    destruct (stuck_walk_returns_accumulated_edges vec_length b v1 v2
                skeleton_edges linked_edges Hstuck) as [Hone _].
    pose proof (call_after_result vec_length b skeleton_edges k vs0 [v1; v2]
                  linked0 linked_edges (S (fuel - S k)) O (Ok linked_edges)
                  Hreach (Hone _)) as Hrun.
    replace (k + S (fuel - S k)) with fuel in Hrun by lia.
    now rewrite Nat.add_0_r in Hrun. }
  split; [|exact Hwalk].
  destruct (cycle_walk_terminates_below vec_length
              (remaining skeleton_edges linked0) b vs0 skeleton_edges linked0)
    as (n & r & _ & Hrun); [lia|].
  pose proof (Hrun (S (remaining skeleton_edges linked0 + k)) ltac:(lia)) as Hbig.
  rewrite (Hwalk (S (remaining skeleton_edges linked0 + k))) in Hbig by lia.
  injection Hbig as <- <-.
  unfold cycle_edges_form_polygon. now rewrite Hrun by lia.
Qed.

Lemma walk_returns_chain_of_stuck_state_witness :
  cycle_edges_form_polygon sq_length facet_mesh [2; 3]%nat unclosed_skeleton_edges [1; 2]%nat
    = Some (Ok [1; 2; 3; 4]%nat) /\
  forall fuel, 1 < fuel ->
    cycle_walk sq_length fuel facet_mesh [2; 3]%nat unclosed_skeleton_edges [1; 2]%nat
      = Some (1%nat, Ok [1; 2; 3; 4]%nat).
Proof.
  apply (walk_returns_chain_of_stuck_state sq_length facet_mesh unclosed_skeleton_edges
           [2; 3]%nat [1; 2]%nat 1 4%nat 5%nat [1; 2; 3; 4]%nat).
  - vm_compute. reflexivity.
  - right. vm_compute. reflexivity.
Defined.
